(** * vfxnaming: tokens, rules and the naming session

    A shallow embedding of [src/naming/tokens.py] and [src/naming/naming.py]
    as Python 3.7 runs them, the newest interpreter that [setup.py]
    declares. Python values are a small tagged union, exceptions are an
    explicit result type, the two module-level registries [_rules] and
    [_tokens] are finite maps threaded through a state-and-exception
    monad, and the dictionaries whose iteration order the code depends on
    ([_options], keyword arguments) are association lists in iteration
    order, which is the order of insertion. A [str] is a string of
    characters of code below 256. *)

From Stdlib Require Import ZArith Lia Ascii String List Bool.
From Stdlib Require Import Decimal DecimalString DecimalPos DecimalN DecimalZ.
From stdpp Require Import gmap strings list fin_maps.

Open Scope string_scope.

(** ** Python values, exceptions and the builtins the code calls *)

Module Py.

(** The objects that flow through the modelled code: [None], [int], [str]. *)
Inductive pyval : Type :=
| VNone
| VInt (z : Z)
| VStr (s : string).

Inductive pyerr : Type :=
| Exception (msg : string)
| KeyError (key : pyval)
| IndexError
| ValueError
| TypeError
| AttributeError
| NotModelled.

Inductive result (A : Type) : Type :=
| Ok (a : A)
| Raise (e : pyerr).
Arguments Ok {A} a.
Arguments Raise {A} e.

Definition rbind {A B} (r : result A) (k : A -> result B) : result B :=
  match r with
  | Ok a => k a
  | Raise e => Raise e
  end.

Definition is_none (v : pyval) : bool :=
  match v with VNone => true | _ => false end.

(** [type(v) is str] *)
Definition is_str (v : pyval) : bool :=
  match v with VStr _ => true | _ => false end.

(** Truth value of an object: [None], [0] and [""] are false. *)
Definition truthy (v : pyval) : bool :=
  match v with
  | VNone => false
  | VInt z => negb (z =? 0)%Z
  | VStr s => negb (s =? "")
  end.

(** [a == b] *)
Definition py_eq (a b : pyval) : bool :=
  match a, b with
  | VNone, VNone => true
  | VInt x, VInt y => (x =? y)%Z
  | VStr x, VStr y => (x =? y)
  | _, _ => false
  end.

Definition chars (s : string) : list ascii := list_ascii_of_string s.
Definition of_chars (l : list ascii) : string := string_of_list_ascii l.

(** The value of a decimal digit: the characters of codes 48 to 57. *)
Definition digit_of_char (c : ascii) : option Z :=
  let code := Z.of_nat (nat_of_ascii c) in
  if (48 <=? code)%Z && (code <=? 57)%Z then Some (code - 48)%Z else None.

(** [c.isdecimal()] for one character *)
Definition is_decimal (c : ascii) : bool :=
  match digit_of_char c with Some _ => true | None => false end.

(** [c.isdigit()] for one character: the decimal digits and, among the
    characters of code below 256, the superscripts two, three and one
    (codes 178, 179 and 185), which are digits without being decimal. *)
Definition char_isdigit (c : ascii) : bool :=
  is_decimal c
  || (let code := nat_of_ascii c in
      (code =? 178)%nat || (code =? 179)%nat || (code =? 185)%nat).

(** [s.isdigit()]: at least one character and all of them digits. *)
Definition isdigit (s : string) : bool :=
  match chars s with
  | [] => false
  | l => forallb char_isdigit l
  end.

(** [s.isdecimal()]: at least one character and all of them decimal
    digits. *)
Definition isdecimal (s : string) : bool :=
  match chars s with
  | [] => false
  | l => forallb is_decimal l
  end.

(** [v.isdigit()] on an arbitrary object: only [str] has the method. *)
Definition isdigit_method (v : pyval) : result bool :=
  match v with
  | VStr s => Ok (isdigit s)
  | _ => Raise AttributeError
  end.

(** [str(n)] for an integer: decimal digits, a leading [-] when negative. *)
Definition str_int (z : Z) : string := NilZero.string_of_int (Z.to_int z).

(** [str(v)], which is also what a [{}] placeholder of [format] prints. *)
Definition str (v : pyval) : string :=
  match v with
  | VNone => "None"
  | VInt z => str_int z
  | VStr s => s
  end.

Definition zeros (n : nat) : string := of_chars (repeat "0"%char n).

Definition is_sign (c : ascii) : bool :=
  (c =? "+")%char || (c =? "-")%char.

(** [s.zfill(width)]: pad with zeros on the left up to [width] characters,
    after the sign when there is one; never truncates. *)
Definition zfill (width : Z) (s : string) : string :=
  let len := Z.of_nat (String.length s) in
  if (width <=? len)%Z then s
  else
    let fill := zeros (Z.to_nat (width - len)) in
    match s with
    | String c s' => if is_sign c then String c (fill +:+ s') else fill +:+ s
    | EmptyString => fill
    end.

(** White space, among the characters of code below 256: the codes 9 to
    13, 28 to 32, 133 and 160. *)
Definition is_space (c : ascii) : bool :=
  let code := nat_of_ascii c in
  ((9 <=? code)%nat && (code <=? 13)%nat)
  || ((28 <=? code)%nat && (code <=? 32)%nat)
  || (code =? 133)%nat || (code =? 160)%nat.

Fixpoint lstrip (l : list ascii) : list ascii :=
  match l with
  | c :: l' => if is_space c then lstrip l' else l
  | [] => []
  end.

Definition strip (l : list ascii) : list ascii :=
  rev (lstrip (rev (lstrip l))).

Fixpoint int_digits (acc : Z) (l : list ascii) : option Z :=
  match l with
  | [] => Some acc
  | c :: l' =>
      match digit_of_char c with
      | Some d => int_digits (10 * acc + d)%Z l'
      | None => None
      end
  end.

(** An underscore may stand between two decimal digits, one at a time;
    [prev] tells whether the character before was a decimal digit. *)
Fixpoint grouping_ok (prev : bool) (l : list ascii) : bool :=
  match l with
  | [] => true
  | c :: l' =>
      if (c =? "_")%char then
        prev && match l' with d :: _ => is_decimal d | [] => false end
        && grouping_ok false l'
      else grouping_ok (is_decimal c) l'
  end.

Definition int_unsigned (l : list ascii) : result Z :=
  match l with
  | [] => Raise ValueError
  | _ =>
      if grouping_ok false l then
        match int_digits 0 (List.filter (fun c => negb (c =? "_")%char) l) with
        | Some z => Ok z
        | None => Raise ValueError
        end
      else Raise ValueError
  end.

(** [int(s)] for a [str]: surrounding white space dropped, an optional
    sign, then one or more decimal digits, with single underscores
    between digits allowed; anything else is a [ValueError]. *)
Definition int (s : string) : result Z :=
  match strip (chars s) with
  | c :: l =>
      if (c =? "-")%char then rbind (int_unsigned l) (fun z => Ok (- z)%Z)
      else if (c =? "+")%char then int_unsigned l
      else int_unsigned (c :: l)
  | [] => Raise ValueError
  end.

(** An index of a slice bound, as Python normalises it: a negative index
    counts from the end, and the result is clipped to [0 .. len]. *)
Definition slice_index (len i : Z) : Z :=
  let j := if (i <? 0)%Z then (i + len)%Z else i in
  Z.max 0 (Z.min len j).

(** [s[lo:hi]], a bound [None] being an omitted one. *)
Definition slice (lo hi : option Z) (s : string) : string :=
  let l := chars s in
  let len := Z.of_nat (length l) in
  let a := match lo with Some i => slice_index len i | None => 0%Z end in
  let b := match hi with Some i => slice_index len i | None => len end in
  of_chars (firstn (Z.to_nat (b - a)) (skipn (Z.to_nat a) l)).

(** [sep.join(parts)] *)
Definition join (sep : string) (parts : list string) : string :=
  String.concat sep parts.

(** [s.split(sep)] for a separator of one character. *)
Fixpoint split (sep : ascii) (s : string) : list string :=
  match s with
  | EmptyString => [EmptyString]
  | String c s' =>
      if (c =? sep)%char then EmptyString :: split sep s'
      else match split sep s' with
           | h :: t => String c h :: t
           | [] => [String c EmptyString]
           end
  end.

(** *** Dictionaries whose iteration order matters

    The items in iteration order, one per key. The order is the order
    of insertion, as a dictionary keeps it: assigning to a present key
    keeps its place, a new key goes last. *)
Definition odict (V : Type) : Type := list (string * V).

Section Odict.
Context {V : Type}.

Fixpoint od_get (k : string) (d : odict V) : option V :=
  match d with
  | [] => None
  | (k', v) :: d' => if k' =? k then Some v else od_get k d'
  end.

Fixpoint od_set (k : string) (v : V) (d : odict V) : odict V :=
  match d with
  | [] => [(k, v)]
  | (k', v') :: d' =>
      if k' =? k then (k, v) :: d' else (k', v') :: od_set k v d'
  end.

Definition od_keys (d : odict V) : list string := map fst d.
Definition od_values (d : odict V) : list V := map snd d.

(** [k in d.keys()] *)
Definition od_mem (k : string) (d : odict V) : bool :=
  existsb (String.eqb k) (od_keys d).
End Odict.

(** [d.values()[i]]: the values of a dictionary are a view, and a view
    cannot be subscripted. *)
Definition values_item (d : odict pyval) (i : Z) : result pyval :=
  Raise TypeError.

(** [d.get(key)] and [key in d.keys()] when the key is any object: the
    keys are all [str], so another object is never found. *)
Definition od_get_obj (key : pyval) (d : odict pyval) : pyval :=
  match key with
  | VStr k => from_option id VNone (od_get k d)
  | _ => VNone
  end.

Definition od_mem_obj (key : pyval) (d : odict pyval) : bool :=
  match key with
  | VStr k => od_mem k d
  | _ => false
  end.

(** [d.get(k)] on a dictionary whose order plays no part, and [d[k]] where
    the key is known to be present. *)
Definition dict_get (k : string) (d : gmap string pyval) : pyval :=
  from_option id VNone (d !! k).

(** [v in xs] for a list: some element is [==] to [v]. *)
Definition py_in (v : pyval) (xs : list pyval) : bool :=
  existsb (py_eq v) xs.

End Py.
Import Py.

(** ** tokens.py *)

Module Tokens.

(** *** class Token *)

Record Token : Type := mkToken {
  _name : string;
  _default : pyval;
  _options : odict pyval
}.

(** [Token(name)] *)
Definition Token_init (name : string) : Token :=
  {| _name := name; _default := VNone; _options := [] |}.

Definition with_default (d : pyval) (t : Token) : Token :=
  {| _name := _name t; _default := d; _options := _options t |}.

Definition add_option (key : string) (value : pyval) (t : Token) : Token :=
  {| _name := _name t; _default := _default t;
     _options := od_set key value (_options t) |}.

(** The [default] property. When no default is set and there is at least
    one option, it assigns [self._options.values()[0]] to [_default]
    before it returns; it is written as a getter that may raise and that
    returns the token it leaves behind as well. *)
Definition default (t : Token) : result pyval * Token :=
  if is_none (_default t) && (1 <=? length (_options t))%nat then
    match values_item (_options t) 0 with
    | Ok v => (Ok v, with_default v t)
    | Raise e => (Raise e, t)
    end
  else (Ok (_default t), t).

(** The [default] setter: [d] is kept only when there are options and [d]
    is among their values. *)
Definition set_default (d : pyval) (t : Token) : Token :=
  if (1 <=? length (_options t))%nat then
    if py_in d (od_values (_options t)) then with_default d t else t
  else t.

(** The [required] property: [self.default is None]. *)
Definition required (t : Token) : result bool * Token :=
  match default t with
  | (Ok d, t1) => (Ok (is_none d), t1)
  | (Raise e, t1) => (Raise e, t1)
  end.

(** A property read followed by the rest of the method. *)
Definition reading {A B} (property : Token -> result A * Token)
    (rest : A -> Token -> result B * Token) (t : Token) : result B * Token :=
  match property t with
  | (Ok a, t1) => rest a t1
  | (Raise e, t1) => (Raise e, t1)
  end.

Definition required_msg (t : Token) : string :=
  "Token " +:+ _name t +:+ " is required. name parameter must be passed.".

Definition not_found_msg (name : pyval) (t : Token) : string :=
  "name '" +:+ str name +:+ "' not found in Token '" +:+ _name t
  +:+ "'. Options: " +:+ join ", " (od_keys (_options t)).

(** [Token.solve(name)]; [name] is [VNone] when the argument is left out.
    Each [if]/[elif] test reads [self.required] again, as the code does.
    When no test succeeds the method falls off its end and yields
    [None]. *)
Definition solve (name : pyval) : Token -> result pyval * Token :=
  reading required (fun r1 t1 =>
  if r1 && truthy name then (Ok name, t1)
  else
    reading required (fun r2 t2 =>
    if r2 && is_none name then (Raise (Exception (required_msg t2)), t2)
    else
      reading required (fun r3 t3 =>
      if negb r3 && truthy name then
        if negb (od_mem_obj name (_options t3))
        then (Raise (Exception (not_found_msg name t3)), t3)
        else (Ok (od_get_obj name (_options t3)), t3)
      else
        reading required (fun r4 t4 =>
        if negb r4 && negb (truthy name) then default t4
        else (Ok VNone, t4)) t3) t2) t1).

(** The loop of [parse]: the key of the first item whose value is [==] to
    [value]. *)
Fixpoint first_key (value : pyval) (items : odict pyval) : option string :=
  match items with
  | [] => None
  | (k, v) :: items' =>
      if py_eq v value then Some k else first_key value items'
  end.

(** [Token.parse(value)] *)
Definition parse (value : pyval) (t : Token) : pyval :=
  if (1 <=? length (_options t))%nat then
    match first_key value (_options t) with
    | Some k => VStr k
    | None => value
    end
  else value.

(** *** class TokenNumber

    [_options] always holds the three keys [prefix], [suffix] and
    [padding]; they are the fields of the record. *)

Record TokenNumber : Type := mkTokenNumber {
  n_name : string;
  n_default : Z;
  prefix : pyval;
  suffix : pyval;
  padding : Z
}.

(** [TokenNumber(name)] *)
Definition TokenNumber_init (name : string) : TokenNumber :=
  {| n_name := name; n_default := 1; prefix := VStr ""; suffix := VStr "";
     padding := 3 |}.

(** [TokenNumber.solve(number)] *)
Definition n_solve (number : pyval) (t : TokenNumber) : string :=
  let numberStr := zfill (padding t) (str number) in
  str (prefix t) +:+ numberStr +:+ str (suffix t).

(** The first loop of [parse], over [value[::1]]: [idx] is
    [prefix_index]. *)
Fixpoint scan (l : list ascii) (idx : Z) : Z :=
  match l with
  | [] => idx
  | each :: l' =>
      if char_isdigit each && (idx =? 0)%Z then (-1)%Z
      else if char_isdigit each && (0 <? idx)%Z then idx
      else scan l' (idx + 1)%Z
  end.

(** [TokenNumber.parse(value)]. The second loop is the first one run over
    [value[::-1]]. With both indices [-1] no branch returns, and the
    result is [None]. *)
Definition n_parse (value : string) : result pyval :=
  if isdigit value then rbind (int value) (fun z => Ok (VInt z))
  else
    let prefix_index := scan (chars value) 0 in
    let suffix_index := scan (rev (chars value)) 0 in
    if (prefix_index =? -1)%Z && (0 <=? suffix_index)%Z then
      rbind (int (slice None (Some (- suffix_index)%Z) value))
            (fun z => Ok (VInt z))
    else if (0 <=? prefix_index)%Z && (suffix_index =? -1)%Z then
      rbind (int (slice (Some prefix_index) None value))
            (fun z => Ok (VInt z))
    else if (0 <=? prefix_index)%Z && (0 <=? suffix_index)%Z then
      rbind (int (slice (Some prefix_index) (Some (- suffix_index)%Z) value))
            (fun z => Ok (VInt z))
    else Ok VNone.

(** The [padding] setter *)
Definition set_padding (p : Z) (t : TokenNumber) : TokenNumber :=
  let p := if (p <=? 0)%Z then 1%Z else p in
  {| n_name := n_name t; n_default := n_default t; prefix := prefix t;
     suffix := suffix t; padding := p |}.

(** The [prefix] setter: [if type(p) is not str and not p.isdigit()]. *)
Definition set_prefix (p : pyval) (t : TokenNumber) : result TokenNumber :=
  if negb (is_str p) then
    rbind (isdigit_method p) (fun dig =>
      if negb dig then
        Ok {| n_name := n_name t; n_default := n_default t; prefix := p;
              suffix := suffix t; padding := padding t |}
      else Ok t)
  else Ok t.

(** The [suffix] setter, the same test on [s]. *)
Definition set_suffix (s : pyval) (t : TokenNumber) : result TokenNumber :=
  if negb (is_str s) then
    rbind (isdigit_method s) (fun dig =>
      if negb dig then
        Ok {| n_name := n_name t; n_default := n_default t;
              prefix := prefix t; suffix := s; padding := padding t |}
      else Ok t)
  else Ok t.

(** *** The token registry of the module *)

Inductive token : Type :=
| AToken (t : Token)
| ANumber (t : TokenNumber).

(** [add_token_number(name, prefix, suffix, padding)] on the registry
    [_tokens]; the new token is returned with the registry. *)
Definition add_token_number (name : string) (pre suf : pyval) (pad : Z)
    (_tokens : gmap string token) : result TokenNumber * gmap string token :=
  let token := TokenNumber_init name in
  match set_prefix pre token with
  | Raise e => (Raise e, _tokens)
  | Ok token =>
      match set_suffix suf token with
      | Raise e => (Raise e, _tokens)
      | Ok token =>
          let token := set_padding pad token in
          (Ok token, <[name := ANumber token]> _tokens)
      end
  end.

(** [add_token], called with [name] and the keyword arguments [kwargs],
    in the order the loop meets them; the [default] setter is the one
    that checks. The function's own parameter is [name]: a keyword of
    that name is refused at the call. *)
Fixpoint add_token_loop (kwargs : odict pyval) (token : Token) : Token :=
  match kwargs with
  | [] => token
  | (k, v) :: kwargs' =>
      if k =? "default" then add_token_loop kwargs' (set_default v token)
      else add_token_loop kwargs' (add_option k v token)
  end.

Definition add_token (name : string) (kwargs : odict pyval)
    (_tokens : gmap string token) : result Token * gmap string token :=
  if od_mem "name" kwargs then (Raise TypeError, _tokens)
  else
    let token := add_token_loop kwargs (Token_init name) in
    (Ok token, <[name := AToken token]> _tokens).

Definition has_token (name : string) (_tokens : gmap string token) : bool :=
  match _tokens !! name with Some _ => true | None => false end.

Definition remove_token (name : string) (_tokens : gmap string token)
    : bool * gmap string token :=
  if has_token name _tokens then (true, delete name _tokens)
  else (false, _tokens).

Definition reset_tokens (_tokens : gmap string token)
    : bool * gmap string token :=
  (true, ∅).

(** [get_token(name)]: [None] stands for Python's [None]. *)
Definition get_token (name : string) (_tokens : gmap string token)
    : option token :=
  _tokens !! name.

End Tokens.


(** ** naming.py *)

Module Naming.

(** *** str.format with keyword arguments

    What [format] does when called with keyword arguments only, on the
    patterns a [Rule] builds: literal text, the escapes [{{] and [}}], and
    replacement fields that are a plain keyword name. A field with a
    conversion, a format specification, an attribute or an index is
    outside the model ([NotModelled]); an empty field, or one that is a
    decimal number, asks for a positional argument, of which there is
    none. A number of more than 18 digits may be refused as too long
    before that, and is outside the model as well. *)

Definition is_field_syntax (c : ascii) : bool :=
  match c with
  | "." | "[" | "]" | "!" | ":" | "{" => true
  | _ => false
  end%char.

Definition format_field (name : string) (values : gmap string pyval)
    : result string :=
  if name =? "" then Raise IndexError
  else if isdecimal name then
    if (String.length name <=? 18)%nat then Raise IndexError
    else Raise NotModelled
  else match values !! name with
       | Some v => Ok (str v)
       | None => Raise (KeyError (VStr name))
       end.

Fixpoint format_go (l : list ascii) (field : option (list ascii))
    (values : gmap string pyval) : result (list ascii) :=
  match l with
  | [] => match field with
          | None => Ok []
          | Some _ => Raise ValueError
          end
  | c :: l' =>
      match field with
      | None =>
          if (c =? "{")%char then
            match l' with
            | c' :: l'' =>
                if (c' =? "{")%char
                then rbind (format_go l'' None values)
                           (fun rest => Ok (c :: rest))
                else format_go l' (Some []) values
            | [] => Raise ValueError
            end
          else if (c =? "}")%char then
            match l' with
            | c' :: l'' =>
                if (c' =? "}")%char
                then rbind (format_go l'' None values)
                           (fun rest => Ok (c :: rest))
                else Raise ValueError
            | [] => Raise ValueError
            end
          else rbind (format_go l' None values) (fun rest => Ok (c :: rest))
      | Some f =>
          if (c =? "}")%char then
            rbind (format_field (of_chars (rev f)) values) (fun piece =>
            rbind (format_go l' None values) (fun rest =>
            Ok (chars piece ++ rest)%list))
          else if is_field_syntax c then Raise NotModelled
          else format_go l' (Some (c :: f)) values
      end
  end.

Definition format (pattern : string) (values : gmap string pyval)
    : result string :=
  rbind (format_go (chars pattern) None values) (fun l => Ok (of_chars l)).

(** *** class Token and its subclass TokenNumber

    One record for both, with the class of the object; the methods the
    subclass overrides dispatch on it. *)

Inductive class : Type :=
| ClsToken
| ClsTokenNumber.

Record Token : Type := mkToken {
  class_of : class;
  _name : string;
  _default : pyval;
  _options : odict pyval
}.

(** [Token(name)] and [TokenNumber(name)] *)
Definition Token_init (name : string) : Token :=
  {| class_of := ClsToken; _name := name; _default := VNone;
     _options := [] |}.

Definition TokenNumber_init (name : string) : Token :=
  {| class_of := ClsTokenNumber; _name := name; _default := VNone;
     _options := [] |}.

(** The [default] setter of [Token]: any value is stored. *)
Definition set_default (d : pyval) (t : Token) : Token :=
  {| class_of := class_of t; _name := _name t; _default := d;
     _options := _options t |}.

Definition add_option (key : string) (value : pyval) (t : Token) : Token :=
  {| class_of := class_of t; _name := _name t; _default := _default t;
     _options := od_set key value (_options t) |}.

(** The [default] property; both versions assign [_default], the one of
    [Token] the value of [self._options.values()[0]]. *)
Definition default (t : Token) : result pyval * Token :=
  match class_of t with
  | ClsTokenNumber => (Ok (VInt 1), set_default (VInt 1) t)
  | ClsToken =>
      if is_none (_default t) && (1 <=? length (_options t))%nat then
        match values_item (_options t) 0 with
        | Ok v => (Ok v, set_default v t)
        | Raise e => (Raise e, t)
        end
      else (Ok (_default t), t)
  end.

Definition required (t : Token) : result bool * Token :=
  match class_of t with
  | ClsTokenNumber => (Ok true, t)
  | ClsToken =>
      match default t with
      | (Ok d, t1) => (Ok (is_none d), t1)
      | (Raise e, t1) => (Raise e, t1)
      end
  end.

Definition is_number (t : Token) : bool :=
  match class_of t with
  | ClsTokenNumber => true
  | ClsToken => false
  end.

(** [Token.solve(name)] *)
Definition Token_solve (name : pyval) (t : Token) : result pyval * Token :=
  if is_none name then default t
  else (Ok (od_get_obj name (_options t)), t).

(** [Token.parse(value)]: the loop ends without a [return] when no value
    matches, so the result is [None]. *)
Definition Token_parse (value : pyval) (t : Token) : pyval :=
  match Tokens.first_key value (_options t) with
  | Some k => VStr k
  | None => VNone
  end.

(** [self._options[key]] *)
Definition option_item (key : string) (t : Token) : result pyval :=
  match od_get key (_options t) with
  | Some v => Ok v
  | None => Raise (KeyError (VStr key))
  end.

(** [TokenNumber.solve(number)]; [zfill] wants an [int] width. *)
Definition TokenNumber_solve (number : pyval) (t : Token) : result string :=
  rbind (option_item "padding" t) (fun pad =>
  match pad with
  | VInt w =>
      let numberStr := zfill w (str number) in
      rbind (option_item "prefix" t) (fun pre =>
      rbind (option_item "suffix" t) (fun suf =>
      Ok (str pre +:+ numberStr +:+ str suf)))
  | _ => Raise TypeError
  end).

(** The first loop of [TokenNumber.parse], over [value[::1]]. *)
Fixpoint scan (l : list ascii) (idx : Z) : Z :=
  match l with
  | [] => idx
  | each :: l' =>
      if char_isdigit each && (idx =? 0)%Z then (-1)%Z
      else if negb (char_isdigit each) then scan l' (idx + 1)%Z
      else idx
  end.

(** [TokenNumber.parse(value)] *)
Definition TokenNumber_parse (value : string) : result pyval :=
  if isdigit value then rbind (int value) (fun z => Ok (VInt z))
  else
    let prefix_index := scan (chars value) 0 in
    let suffix_index := scan (rev (chars value)) 0 in
    if (prefix_index =? -1)%Z && (0 <=? suffix_index)%Z then
      rbind (int (slice None (Some (- suffix_index)%Z) value))
            (fun z => Ok (VInt z))
    else if (0 <=? prefix_index)%Z && (suffix_index =? -1)%Z then
      rbind (int (slice (Some prefix_index) None value))
            (fun z => Ok (VInt z))
    else if (0 <=? prefix_index)%Z && (0 <=? suffix_index)%Z then
      rbind (int (slice (Some prefix_index) (Some (- suffix_index)%Z) value))
            (fun z => Ok (VInt z))
    else Ok VNone.

(** [token.parse(value)] by the class of the token. *)
Definition token_parse (value : string) (t : Token) : result pyval :=
  match class_of t with
  | ClsTokenNumber => TokenNumber_parse value
  | ClsToken => Ok (Token_parse (VStr value) t)
  end.

(** *** class Rule *)

Record Rule : Type := mkRule {
  r_name : string;
  _fields : list string
}.

(** [Rule(name, fields)]: an empty list extended by [add_fields]. *)
Definition Rule_init (name : string) (fields : list string) : Rule :=
  {| r_name := name; _fields := ([] ++ fields)%list |}.

Definition fields (r : Rule) : list string := _fields r.

Definition _pattern (r : Rule) : string :=
  "{" +:+ join "}_{" (fields r) +:+ "}".

(** [Rule.solve], called with the keyword arguments [values]. The
    method's own parameter is [self]: a keyword of that name is refused
    at the call. *)
Definition Rule_solve (values : gmap string pyval) (r : Rule)
    : result string :=
  match values !! "self" with
  | Some _ => Raise TypeError
  | None => format (_pattern r) values
  end.

(** *** The session: the module-level dictionaries

    [_rules] holds the rules by name and, under the key ["_active"], the
    name of the active rule or [None]; so a value of it is [None], a name
    or a rule. *)

Inductive entry : Type :=
| ENone
| EName (name : string)
| ERule (r : Rule).

Record session : Type := mkSession {
  _rules : gmap string entry;
  _tokens : gmap string Token
}.

(** The state at import: [_rules = {'_active': None}], [_tokens = dict()]. *)
Definition initial : session :=
  {| _rules := {[ "_active" := ENone ]}; _tokens := ∅ |}.

(** Computations on the session that may raise; what was assigned before
    the exception stays assigned. *)
Definition M (A : Type) : Type := session -> result A * session.

Definition ret {A} (a : A) : M A := fun s => (Ok a, s).
Definition raise {A} (e : pyerr) : M A := fun s => (Raise e, s).
Definition bind {A B} (m : M A) (k : A -> M B) : M B :=
  fun s => match m s with
           | (Ok a, s') => k a s'
           | (Raise e, s') => (Raise e, s')
           end.
Definition lift {A} (r : result A) : M A := fun s => (r, s).

Notation "'let*' x ':=' m 'in' k" := (bind m (fun x => k))
  (at level 10, x pattern, m at level 100, k at level 200).

Definition rules : M (gmap string entry) := fun s => (Ok (_rules s), s).
Definition tokens : M (gmap string Token) := fun s => (Ok (_tokens s), s).
Definition set_rules (r : gmap string entry) : M unit :=
  fun s => (Ok tt, {| _rules := r; _tokens := _tokens s |}).
Definition set_tokens (t : gmap string Token) : M unit :=
  fun s => (Ok tt, {| _rules := _rules s; _tokens := t |}).

Definition is_ENone (e : entry) : bool :=
  match e with ENone => true | _ => false end.

(** [_rules.get(key)] where [key] is itself a value of [_rules]: only a
    name can be a key. *)
Definition rules_get (key : entry) (r : gmap string entry) : entry :=
  match key with
  | EName n => from_option id ENone (r !! n)
  | _ => ENone
  end.

Definition has_rule (name : string) : M bool :=
  let* r := rules in
  ret (match r !! name with Some _ => true | None => false end).

Definition get_active_rule : M entry :=
  let* r := rules in
  match r !! "_active" with
  | Some name => ret (rules_get name r)
  | None => raise (KeyError (VStr "_active"))
  end.

Definition set_active_rule (name : string) : M bool :=
  let* found := has_rule name in
  if found then
    let* r := rules in
    let* _ := set_rules (<["_active" := EName name]> r) in
    ret true
  else ret false.

Definition add_rule (name : string) (fields : list string) : M Rule :=
  let rule := Rule_init name fields in
  let* r := rules in
  let* _ := set_rules (<[name := ERule rule]> r) in
  let* active := get_active_rule in
  let* _ := (if is_ENone active then set_active_rule name else ret false) in
  ret rule.

Definition remove_rule (name : string) : M bool :=
  let* found := has_rule name in
  if found then
    let* r := rules in
    let* _ := set_rules (delete name r) in
    ret true
  else ret false.

Definition reset_rules : M bool :=
  let* _ := set_rules (<["_active" := ENone]> ∅) in
  ret true.

Definition get_rule (name : string) : M entry :=
  let* r := rules in
  ret (from_option id ENone (r !! name)).

(** What [load_rule] finds at [filepath], the file system left out: no
    file or no JSON in it; JSON that is not the data of a [Rule], from
    which [Rule.from_data] makes [None]; or the data that [save_rule]
    wrote, from which it makes the rule again. *)
Inductive rule_file : Type :=
| NoJSON
| OtherData
| RuleData (rule : Rule).

(** [load_rule(filepath)]: with [None] for [rule], reading [rule.name]
    raises. *)
Definition load_rule (content : rule_file) : M bool :=
  match content with
  | NoJSON => ret false
  | OtherData => raise AttributeError
  | RuleData rule =>
      let* r := rules in
      let* _ := set_rules (<[r_name rule := ERule rule]> r) in
      ret true
  end.

(** [add_token], called with [name] and the keyword arguments [kwargs],
    in the order the loop meets them. The function's own parameter is
    [name]: a keyword of that name is refused at the call. *)
Fixpoint add_token_loop (kwargs : odict pyval) (token : Token) : Token :=
  match kwargs with
  | [] => token
  | (k, v) :: kwargs' =>
      if k =? "default" then add_token_loop kwargs' (set_default v token)
      else add_token_loop kwargs' (add_option k v token)
  end.

Definition add_token (name : string) (kwargs : odict pyval) : M Token :=
  if od_mem "name" kwargs then raise TypeError
  else
    let token := add_token_loop kwargs (Token_init name) in
    let* t := tokens in
    let* _ := set_tokens (<[name := token]> t) in
    ret token.

Definition add_token_number (name : string) (prefix padding suffix : pyval)
    : M Token :=
  let token := TokenNumber_init name in
  let token := add_option "prefix" prefix token in
  let token := add_option "padding" padding token in
  let token := add_option "suffix" suffix token in
  let* t := tokens in
  let* _ := set_tokens (<[name := token]> t) in
  ret token.

(** [_tokens[f]] *)
Definition token_item (f : string) : M Token :=
  let* t := tokens in
  match t !! f with
  | Some token => ret token
  | None => raise (KeyError (VStr f))
  end.

(** A property read on the token object stored under [f], which may
    assign to the object and may raise: the registry holds the object as
    the read left it. *)
Definition on_token {A} (f : string) (read : Token -> result A * Token)
    (token : Token) : M A :=
  let '(a, token') := read token in
  let* t := tokens in
  let* _ := set_tokens (<[f := token']> t) in
  lift a.

(** [args[i]] *)
Definition arg_item (args : list pyval) (i : nat) : M pyval :=
  match args !! i with
  | Some v => ret v
  | None => raise IndexError
  end.

(** [kwargs.get(f) is not None] *)
Definition given (kwargs : gmap string pyval) (f : string) : bool :=
  match kwargs !! f with
  | Some v => negb (is_none v)
  | None => false
  end.

(** The loop of [Rule.parse] from position [i] on. *)
Fixpoint parse_loop (split_name : list string) (i : nat)
    (fs : list string) (retval : gmap string pyval)
    : M (gmap string pyval) :=
  match fs with
  | [] => ret retval
  | f :: fs' =>
      match split_name !! i with
      | None => raise IndexError
      | Some name_part =>
          let* token := token_item f in
          let* req := on_token f required token in
          if req then
            if is_number token then
              let* v := lift (token_parse name_part token) in
              parse_loop split_name (S i) fs' (<[f := v]> retval)
            else
              parse_loop split_name (S i) fs' (<[f := VStr name_part]> retval)
          else
            let* token := token_item f in
            let* v := lift (token_parse name_part token) in
            parse_loop split_name (S i) fs' (<[f := v]> retval)
      end
  end.

(** [Rule.parse(name)] *)
Definition Rule_parse (name : string) (r : Rule) : M (gmap string pyval) :=
  parse_loop (split "_" name) 0 (fields r) ∅.

(** The loop of the module's [solve]; [i] counts the positional arguments
    used so far. *)
Fixpoint solve_loop (args : list pyval) (kwargs : gmap string pyval)
    (i : nat) (fs : list string) (values : gmap string pyval)
    : M (gmap string pyval) :=
  match fs with
  | [] => ret values
  | f :: fs' =>
      let* token := token_item f in
      if is_number token then
        if given kwargs f then
          let* piece :=
            lift (TokenNumber_solve (dict_get f kwargs) token) in
          solve_loop args kwargs i fs' (<[f := VStr piece]> values)
        else
          let* a := arg_item args i in
          let* piece := lift (TokenNumber_solve a token) in
          solve_loop args kwargs (S i) fs' (<[f := VStr piece]> values)
      else
        let* req := on_token f required token in
        if req then
          if given kwargs f then
            solve_loop args kwargs i fs'
                       (<[f := dict_get f kwargs]> values)
          else
            let* a := arg_item args i in
            solve_loop args kwargs (S i) fs' (<[f := a]> values)
        else
          let* token := token_item f in
          let* piece :=
            on_token f (Token_solve (dict_get f kwargs)) token in
          solve_loop args kwargs i fs' (<[f := piece]> values)
  end.

(** What [get_active_rule()] returned, used as a rule: [None] and a name
    have neither [fields] nor [parse]. *)
Definition as_rule (e : entry) : M Rule :=
  match e with
  | ERule r => ret r
  | _ => raise AttributeError
  end.

(** The module's [solve], called with [args] and [kwargs] *)
Definition solve (args : list pyval) (kwargs : gmap string pyval)
    : M string :=
  let* active := get_active_rule in
  let* rule := as_rule active in
  let* values := solve_loop args kwargs 0 (fields rule) ∅ in
  lift (Rule_solve values rule).

(** [parse(name)] *)
Definition parse (name : string) : M (gmap string pyval) :=
  let* active := get_active_rule in
  let* rule := as_rule active in
  Rule_parse name rule.

(** The calls that change [_rules], and the states they reach from the
    state at import. *)
Inductive call : Type :=
| CallAddRule (name : string) (fields : list string)
| CallRemoveRule (name : string)
| CallResetRules
| CallSetActiveRule (name : string)
| CallLoadRule (content : rule_file).

Definition run_call (c : call) (s : session) : session :=
  match c with
  | CallAddRule name fs => snd (add_rule name fs s)
  | CallRemoveRule name => snd (remove_rule name s)
  | CallResetRules => snd (reset_rules s)
  | CallSetActiveRule name => snd (set_active_rule name s)
  | CallLoadRule content => snd (load_rule content s)
  end.

Definition run_calls (cs : list call) (s : session) : session :=
  fold_left (fun s c => run_call c s) cs s.

(** The token registry *)
Definition has_token (name : string) : M bool :=
  let* t := tokens in
  ret (match t !! name with Some _ => true | None => false end).

Definition remove_token (name : string) : M bool :=
  let* found := has_token name in
  if found then
    let* t := tokens in
    let* _ := set_tokens (delete name t) in
    ret true
  else ret false.

Definition reset_tokens : M bool :=
  let* _ := set_tokens ∅ in
  ret true.

(** [get_token(name)]: [None] stands for Python's [None]. *)
Definition get_token (name : string) : M (option Token) :=
  let* t := tokens in
  ret (t !! name).

(** The name a call is about. *)
Definition call_name (c : call) : option string :=
  match c with
  | CallAddRule name _ => Some name
  | CallRemoveRule name => Some name
  | CallResetRules => None
  | CallSetActiveRule name => Some name
  | CallLoadRule (RuleData rule) => Some (r_name rule)
  | CallLoadRule _ => None
  end.

End Naming.

(** ** The words of the specification

    What the specification says a solved number looks like, to compare
    with what the code computes, and the condition on the rule registry
    that the calls keep. *)

Module Wording.

(** Every character is a digit for [isdigit]; no character is one. *)
Definition all_digits (l : list ascii) : Prop :=
  Forall (fun c => char_isdigit c = true) l.

Definition no_digits (l : list ascii) : Prop :=
  Forall (fun c => char_isdigit c = false) l.

(** The decimal digits of a natural number. *)
Definition decimal (n : Z) : string :=
  NilEmpty.string_of_uint (N.to_uint (Z.to_N n)).

(** The digits left-padded with zeros up to [width] characters. *)
Definition zero_padded (width : Z) (digits : string) : string :=
  zeros (Z.to_nat (width - Z.of_nat (String.length digits))) +:+ digits.

(** The key ["_active"] is in [_rules]. *)
Definition has_active_key (s : Naming.session) : Prop :=
  is_Some (Naming._rules s !! "_active").

(** A field name that [format] takes as a plain keyword: not empty, not a
    decimal number, and free of the characters of the replacement-field
    syntax. *)
Definition plain_char (c : ascii) : Prop :=
  Naming.is_field_syntax c = false /\ c <> "}"%char.

Definition plain_field (f : string) : Prop :=
  f <> "" /\ isdecimal f = false /\ Forall plain_char (chars f).

(** A string without the separator of the rules. *)
Definition no_underscore (v : string) : Prop :=
  Forall (fun c => c <> "_"%char) (chars v).

(** The rule registry as the calls that never touch the key ["_active"]
    keep it: the pointer is [None] or a name other than ["_active"], and
    under every other key there is a rule that carries the key as its
    name. *)
Definition pointer_ok (s : Naming.session) : Prop :=
  Naming._rules s !! "_active" = Some Naming.ENone
  \/ exists n, n <> "_active"
              /\ Naming._rules s !! "_active" = Some (Naming.EName n).

Definition rules_named (s : Naming.session) : Prop :=
  forall k e, k <> "_active" -> Naming._rules s !! k = Some e ->
              exists r, e = Naming.ERule r /\ Naming.r_name r = k.

Definition registry_ok (s : Naming.session) : Prop :=
  pointer_ok s /\ rules_named s.

(** A token of naming.py as [Token(name)] leaves it: no default and no
    option, so that it is required; and a session in which every field
    of a list names such a token. *)
Definition raw_token (t : Naming.Token) : Prop :=
  Naming.class_of t = Naming.ClsToken
  /\ Naming._default t = VNone /\ Naming._options t = [].

Definition raw_fields (s : Naming.session) (fs : list string) : Prop :=
  Forall (fun f => exists t, Naming._tokens s !! f = Some t /\ raw_token t)
         fs.

(** A number token of naming.py with the three options that
    [add_token_number] gives it. *)
Definition number_token (t : Naming.Token) (pre suf : string) (w : Z)
    : Prop :=
  Naming.class_of t = Naming.ClsTokenNumber
  /\ od_get "prefix" (Naming._options t) = Some (VStr pre)
  /\ od_get "padding" (Naming._options t) = Some (VInt w)
  /\ od_get "suffix" (Naming._options t) = Some (VStr suf).

(** A field and its keyword argument: the token has no option and the
    argument is a string without underscore, or the token is a number
    token whose prefix and suffix hold neither digit nor underscore and
    the argument is a natural number. *)
Definition round_trip_field (s : Naming.session)
    (kwargs : gmap string pyval) (f : string) : Prop :=
  exists t, Naming._tokens s !! f = Some t
    /\ ((raw_token t
         /\ exists v, kwargs !! f = Some (VStr v) /\ no_underscore v)
        \/ (exists pre suf w n,
              number_token t pre suf w
              /\ no_digits (chars pre) /\ no_digits (chars suf)
              /\ no_underscore pre /\ no_underscore suf
              /\ kwargs !! f = Some (VInt n) /\ (0 <= n)%Z)).

(** What [solve] writes for a field, and what [Rule.parse] reads from
    it: the piece holds no underscore, and the token of the field turns
    it back into the keyword argument. *)
Definition piece_of (s : Naming.session) (kwargs : gmap string pyval) (f : string)
    (p : string) (v : pyval) : Prop :=
  kwargs !! f = Some v /\ no_underscore p
  /\ exists t, Naming._tokens s !! f = Some t /\ Naming.required t = (Ok true, t)
       /\ ((Naming.is_number t = false /\ v = VStr p)
           \/ (Naming.is_number t = true /\ Naming.token_parse p t = Ok v)).

End Wording.

(** * Properties *)

(** ** Strings, digits and the builtins *)

Module PyFacts.
Import Wording.

Lemma chars_app (a b : string) : chars (a +:+ b) = (chars a ++ chars b)%list.
Proof.
  unfold chars. induction a as [|c a IH]; simpl; [reflexivity|].
  now rewrite IH.
Qed.

Lemma of_chars_app (a b : list ascii) :
  of_chars (a ++ b)%list = of_chars a +:+ of_chars b.
Proof.
  unfold of_chars. induction a as [|c a IH]; simpl; [reflexivity|].
  now rewrite IH.
Qed.

Lemma append_empty_r (s : string) : s +:+ "" = s.
Proof.
  induction s as [|c s IH]; [reflexivity | exact (f_equal (String c) IH)].
Qed.

Lemma of_chars_chars (s : string) : of_chars (chars s) = s.
Proof. apply string_of_list_ascii_of_string. Qed.

Lemma chars_of_chars (l : list ascii) : chars (of_chars l) = l.
Proof. apply list_ascii_of_string_of_list_ascii. Qed.

Lemma length_chars (s : string) : length (chars s) = String.length s.
Proof.
  unfold chars. induction s as [|c s IH]; simpl; [reflexivity|].
  now rewrite IH.
Qed.

Lemma py_eq_true (a b : pyval) : py_eq a b = true <-> a = b.
Proof.
  destruct a, b; simpl; try (split; [discriminate|congruence]).
  - tauto.
  - rewrite Z.eqb_eq. split; congruence.
  - rewrite String.eqb_eq. split; congruence.
Qed.

Lemma py_in_In (v : pyval) (xs : list pyval) : py_in v xs = true <-> In v xs.
Proof.
  unfold py_in. rewrite existsb_exists. split.
  - intros (x & Hx & E). apply py_eq_true in E. now subst.
  - intros H. exists v. split; [assumption|]. now apply py_eq_true.
Qed.

(** *** Strings of digits *)


Lemma forallb_all_digits (l : list ascii) :
  all_digits l -> forallb char_isdigit l = true.
Proof. intros H. apply forallb_forall. now apply List.Forall_forall. Qed.

Lemma isdigit_all_digits (s : string) :
  all_digits (chars s) -> chars s <> [] -> isdigit s = true.
Proof.
  intros H Hne. unfold isdigit. destruct (chars s) eqn:E; [congruence|].
  now apply forallb_all_digits.
Qed.

(** Evaluate [digit_of_char] on the characters that are written out. *)
Ltac digit_values :=
  repeat match goal with
         | |- context [digit_of_char ?c] =>
             let v := eval vm_compute in (digit_of_char c) in
             change (digit_of_char c) with v
         end;
  cbv beta iota.

Lemma uint_all_digits (d : uint) :
  all_digits (chars (NilEmpty.string_of_uint d)).
Proof.
  unfold all_digits, chars.
  induction d; simpl; constructor; (reflexivity || assumption).
Qed.

Lemma int_digits_uint_acc (d : uint) (acc : positive) :
  int_digits (Z.pos acc) (chars (NilEmpty.string_of_uint d))
  = Some (Z.pos (Pos.of_uint_acc d acc)).
Proof.
  unfold chars. revert acc.
  induction d; intros acc;
    cbn [NilEmpty.string_of_uint list_ascii_of_string int_digits
         Pos.of_uint_acc];
    [reflexivity | digit_values; rewrite <- IHd; f_equal; lia ..].
Qed.

Lemma int_digits_uint (d : uint) :
  int_digits 0 (chars (NilEmpty.string_of_uint d))
  = Some (Z.of_N (Pos.of_uint d)).
Proof.
  unfold chars.
  induction d;
    cbn [NilEmpty.string_of_uint list_ascii_of_string int_digits Pos.of_uint];
    [reflexivity | digit_values; try assumption; apply int_digits_uint_acc ..].
Qed.

Lemma str_int_decimal (n : Z) : (0 <= n)%Z -> str_int n = decimal n.
Proof.
  intros Hn. unfold str_int, decimal. destruct n as [|p|p]; [reflexivity| |lia].
  simpl. unfold NilZero.string_of_uint.
  pose proof (DecimalPos.Unsigned.to_uint_nonnil p) as Hnil.
  destruct (Pos.to_uint p); congruence.
Qed.

Lemma decimal_all_digits (n : Z) : all_digits (chars (decimal n)).
Proof. apply uint_all_digits. Qed.

Lemma decimal_nonempty (n : Z) : chars (decimal n) <> [].
Proof.
  unfold decimal. destruct (Z.to_N n) as [|p]; simpl; [discriminate|].
  pose proof (DecimalPos.Unsigned.to_uint_nonnil p) as Hnil.
  destruct (Pos.to_uint p); simpl; congruence.
Qed.

Lemma int_digits_decimal (n : Z) :
  (0 <= n)%Z -> int_digits 0 (chars (decimal n)) = Some n.
Proof.
  intros Hn. unfold decimal. rewrite int_digits_uint.
  change (Pos.of_uint (N.to_uint (Z.to_N n)))
    with (N.of_uint (N.to_uint (Z.to_N n))).
  rewrite DecimalN.Unsigned.of_to. f_equal. lia.
Qed.

Lemma int_digits_zeros (k : nat) (l : list ascii) :
  int_digits 0 (repeat "0"%char k ++ l) = int_digits 0 l.
Proof.
  induction k as [|k IH]; cbn [repeat app int_digits]; [reflexivity|].
  digit_values. exact IH.
Qed.

Lemma all_digits_zeros (k : nat) : all_digits (repeat "0"%char k).
Proof. induction k; simpl; constructor; (reflexivity || assumption). Qed.

Lemma digit_not_space (c : ascii) : char_isdigit c = true -> is_space c = false.
Proof.
  destruct c as [[|] [|] [|] [|] [|] [|] [|] [|]]; vm_compute; congruence.
Qed.

Lemma digit_not_sign (c : ascii) : char_isdigit c = true -> is_sign c = false.
Proof.
  destruct c as [[|] [|] [|] [|] [|] [|] [|] [|]]; vm_compute; congruence.
Qed.

Lemma lstrip_digits (l : list ascii) : all_digits l -> lstrip l = l.
Proof.
  intros H. destruct H as [|c l Hc Hl]; simpl; [reflexivity|].
  now rewrite (digit_not_space _ Hc).
Qed.

Lemma all_digits_rev (l : list ascii) : all_digits l -> all_digits (rev l).
Proof. unfold all_digits. intros H. now apply Forall_rev. Qed.

Lemma strip_digits (l : list ascii) : all_digits l -> strip l = l.
Proof.
  intros H. unfold strip. rewrite (lstrip_digits l H).
  rewrite (lstrip_digits (rev l) (all_digits_rev l H)). apply rev_involutive.
Qed.

Lemma digit_not_underscore (c : ascii) :
  char_isdigit c = true -> c <> "_"%char.
Proof. intros Hc ->. discriminate. Qed.

(** Where there is no underscore, there is no grouping to check and
    nothing to drop. *)
Lemma grouping_without_underscore (l : list ascii) (prev : bool) :
  Forall (fun c => c <> "_"%char) l ->
  grouping_ok prev l = true
  /\ List.filter (fun c => negb (c =? "_")%char) l = l.
Proof.
  intros H. revert prev.
  induction H as [|c l Hc _ IH]; intros prev; [now split|].
  apply Ascii.eqb_neq in Hc. cbn [grouping_ok List.filter]. rewrite Hc.
  cbn [negb]. destruct (IH (is_decimal c)) as [Hg Hf].
  split; [exact Hg | now rewrite Hf].
Qed.

(** [int] reads a non-empty string of digits as the number they write. *)
Lemma int_of_digits (s : string) (z : Z) :
  all_digits (chars s) -> chars s <> [] -> int_digits 0 (chars s) = Some z ->
  int s = Ok z.
Proof.
  intros Hd Hne Hz. unfold int. rewrite (strip_digits _ Hd).
  destruct (chars s) as [|c l] eqn:E; [congruence|].
  assert (Hc : is_sign c = false).
  { apply digit_not_sign. now inversion Hd. }
  unfold is_sign in Hc. apply orb_false_iff in Hc as [Hplus Hminus].
  rewrite Hminus, Hplus. unfold int_unsigned.
  destruct (grouping_without_underscore (c :: l) false) as [Hg Hf].
  { eapply Forall_impl; [exact Hd|]. intros a. apply digit_not_underscore. }
  now rewrite Hg, Hf, Hz.
Qed.

(** *** zfill on the digits of a number *)

Lemma zfill_digits (width : Z) (s : string) :
  all_digits (chars s) -> zfill width s = zero_padded width s.
Proof.
  intros Hd. unfold zfill, zero_padded.
  destruct (Z.leb_spec width (Z.of_nat (String.length s))) as [Hle|Hlt].
  - replace (Z.to_nat (width - Z.of_nat (String.length s))) with 0%nat by lia.
    reflexivity.
  - destruct s as [|c s']; simpl.
    + now rewrite append_empty_r.
    + assert (Hc : is_sign c = false).
      { apply digit_not_sign. unfold chars in Hd. simpl in Hd.
        now inversion Hd. }
      now rewrite Hc.
Qed.

Lemma zero_padded_chars (width : Z) (s : string) :
  chars (zero_padded width s)
  = (repeat "0"%char (Z.to_nat (width - Z.of_nat (String.length s)))
     ++ chars s)%list.
Proof.
  unfold zero_padded, zeros. now rewrite chars_app, chars_of_chars.
Qed.

Lemma zero_padded_all_digits (width : Z) (s : string) :
  all_digits (chars s) -> all_digits (chars (zero_padded width s)).
Proof.
  intros H. rewrite zero_padded_chars. apply Forall_app. split.
  - apply all_digits_zeros.
  - exact H.
Qed.

Lemma zero_padded_nonempty (width : Z) (s : string) :
  chars s <> [] -> chars (zero_padded width s) <> [].
Proof.
  intros H. rewrite zero_padded_chars. intros E.
  apply app_eq_nil in E as [_ E]. contradiction.
Qed.

Lemma zero_padded_length (width : Z) (s : string) :
  Z.of_nat (String.length (zero_padded width s))
  = Z.max width (Z.of_nat (String.length s)).
Proof.
  rewrite <- !length_chars, zero_padded_chars, length_app, repeat_length.
  rewrite length_chars. lia.
Qed.

Lemma int_zero_padded (width n : Z) :
  (0 <= n)%Z -> int (zero_padded width (decimal n)) = Ok n.
Proof.
  intros Hn. apply int_of_digits.
  - apply zero_padded_all_digits, decimal_all_digits.
  - apply zero_padded_nonempty, decimal_nonempty.
  - rewrite zero_padded_chars, int_digits_zeros. now apply int_digits_decimal.
Qed.

End PyFacts.

(** ** tokens.py: Token *)

Module TokensSpec.
Import Wording PyFacts Tokens.

(** The getter on the three kinds of token: required, with a stored
    default, and with options but no default. *)
Lemma default_required_token (t : Token) :
  _default t = VNone -> _options t = [] -> default t = (Ok VNone, t).
Proof. intros Hd Ho. unfold default. now rewrite Hd, Ho. Qed.

Lemma required_required_token (t : Token) :
  _default t = VNone -> _options t = [] -> required t = (Ok true, t).
Proof.
  intros Hd Ho. unfold required. now rewrite default_required_token.
Qed.

Lemma default_stored (t : Token) :
  _default t <> VNone -> default t = (Ok (_default t), t).
Proof.
  intros Hd. unfold default. destruct (_default t); [congruence|reflexivity..].
Qed.

Lemma required_stored (t : Token) :
  _default t <> VNone -> required t = (Ok false, t).
Proof.
  intros Hd. unfold required. rewrite (default_stored t Hd).
  destruct (_default t); [congruence|reflexivity..].
Qed.

Lemma default_without_default (t : Token) :
  _default t = VNone -> _options t <> [] -> default t = (Raise TypeError, t).
Proof.
  intros Hd Ho. unfold default. rewrite Hd.
  destruct (_options t); [congruence|reflexivity].
Qed.

Lemma required_without_default (t : Token) :
  _default t = VNone -> _options t <> [] -> required t = (Raise TypeError, t).
Proof.
  intros Hd Ho. unfold required. now rewrite default_without_default.
Qed.

(** The getter leaves the token as it is. *)
Lemma default_keeps (t : Token) : snd (default t) = t.
Proof.
  unfold default.
  now destruct (is_none (_default t) && (1 <=? length (_options t))%nat).
Qed.

Lemma required_keeps (t : Token) : snd (required t) = t.
Proof.
  unfold required. pose proof (default_keeps t) as H.
  destruct (default t) as [[d|e] t1]; exact H.
Qed.

(** A token that is not required has a stored default. *)
Lemma not_required_stored (t : Token) :
  fst (required t) = Ok false -> _default t <> VNone.
Proof.
  intros Hreq Hd. destruct (_options t) as [|o rest] eqn:Ho.
  - rewrite (required_required_token t Hd Ho) in Hreq. discriminate.
  - rewrite (required_without_default t Hd) in Hreq; [discriminate|].
    now rewrite Ho.
Qed.

(** [solve], with every reading of [required] replaced by its value. *)
Lemma solve_unfold (name : pyval) (t : Token) :
  solve name t =
    match fst (required t) with
    | Raise e => (Raise e, t)
    | Ok r =>
        if r && truthy name then (Ok name, t)
        else if r && is_none name
        then (Raise (Exception (required_msg t)), t)
        else if negb r && truthy name then
          if negb (od_mem_obj name (_options t))
          then (Raise (Exception (not_found_msg name t)), t)
          else (Ok (od_get_obj name (_options t)), t)
        else if negb r && negb (truthy name) then default t
        else (Ok VNone, t)
    end.
Proof.
  assert (Hreq : exists r, required t = (r, t)).
  { exists (fst (required t)). pose proof (required_keeps t) as Hkeep.
    destruct (required t) as [r t1]. cbn [fst snd] in *. now subst t1. }
  destruct Hreq as [r Hreq]. unfold solve, reading.
  rewrite Hreq. cbv beta iota. cbn [fst].
  destruct r as [r|e]; [|reflexivity].
  destruct (r && truthy name); [reflexivity|]. rewrite Hreq. cbv beta iota.
  destruct (r && is_none name); [reflexivity|]. rewrite Hreq. cbv beta iota.
  destruct (negb r && truthy name); [reflexivity|].
  rewrite Hreq. cbv beta iota.
  destruct (negb r && negb (truthy name)); reflexivity.
Qed.

(** C9. A required token (no default, no options) solved with the empty
    string as name: no exception, not the input, the result is [None], and
    the token is left as it was. *)
Theorem C9_required_token_empty_name (t : Token) :
  _default t = VNone -> _options t = [] ->
  solve (VStr "") t = (Ok VNone, t).
Proof.
  intros Hd Ho. rewrite solve_unfold.
  rewrite (required_required_token t Hd Ho). reflexivity.
Qed.

Lemma C9_required_token_empty_name_witness :
  solve (VStr "") (Token_init "category") = (Ok VNone, Token_init "category").
Proof.
  apply (C9_required_token_empty_name (Token_init "category")); reflexivity.
Defined.




(** *** parse *)

Lemma first_key_none (value : pyval) (items : odict pyval) :
  (forall k v, In (k, v) items -> v <> value) ->
  first_key value items = None.
Proof.
  induction items as [|[k v] items IH]; intros H; simpl; [reflexivity|].
  destruct (py_eq v value) eqn:E.
  - apply py_eq_true in E. exfalso. apply (H k v); [now left | assumption].
  - apply IH. intros k' v' Hin. apply (H k' v'). now right.
Qed.

Lemma first_key_first (value : pyval) (before after : odict pyval)
    (k : string) :
  (forall k' v', In (k', v') before -> v' <> value) ->
  first_key value (before ++ (k, value) :: after)%list = Some k.
Proof.
  induction before as [|[k0 v0] before IH]; intros H; simpl.
  - assert (E : py_eq value value = true) by now apply py_eq_true.
    now rewrite E.
  - destruct (py_eq v0 value) eqn:E.
    + apply py_eq_true in E. exfalso.
      apply (H k0 v0); [now left | assumption].
    + apply IH. intros k' v' Hin. apply (H k' v'). now right.
Qed.

(** [Token.parse] of tokens.py meets the contract of C4: the key of the
    first option whose abbreviation is [value], and [value] itself when
    there is none. *)
Lemma parse_first_key_or_value (t : Token) (value : string) :
  (forall before after k,
     _options t = (before ++ (k, VStr value) :: after)%list ->
     (forall k' v', In (k', v') before -> v' <> VStr value) ->
     parse (VStr value) t = VStr k)
  /\ ((forall k v, In (k, v) (_options t) -> v <> VStr value) ->
      parse (VStr value) t = VStr value).
Proof.
  split.
  - intros before after k Ho Hfirst. unfold parse. rewrite Ho.
    rewrite first_key_first by assumption.
    destruct before; reflexivity.
  - intros Hnone. unfold parse. rewrite first_key_none by assumption.
    now destruct (1 <=? length (_options t))%nat.
Qed.

(** *** default *)




End TokensSpec.

(** ** tokens.py: TokenNumber *)

Module NumberSpec.
Import Wording PyFacts Tokens.

(** *** The scanning loop and the slices of [parse] *)

Lemma scan_no_digits (p rest : list ascii) (k : Z) :
  no_digits p -> (0 <= k)%Z ->
  scan (p ++ rest) k = scan rest (k + Z.of_nat (length p)).
Proof.
  intros Hp. revert k.
  induction Hp as [|c p Hc Hp IH]; intros k Hk; simpl.
  - f_equal. lia.
  - rewrite Hc. simpl. rewrite IH by lia. f_equal. lia.
Qed.

Lemma scan_digit (c : ascii) (rest : list ascii) (k : Z) :
  char_isdigit c = true -> (0 <= k)%Z ->
  scan (c :: rest) k = if (k =? 0)%Z then (-1)%Z else k.
Proof.
  intros Hc Hk. simpl. rewrite Hc. simpl.
  destruct (Z.eqb_spec k 0) as [E|E]; [reflexivity|].
  destruct (Z.ltb_spec 0 k); [reflexivity | lia].
Qed.

(** The index a loop ends with on a run of non-digits followed by a
    digit: the length of the run, or [-1] when the run is empty. *)
Lemma scan_run_empty (d rest : list ascii) :
  all_digits d -> d <> [] -> scan (d ++ rest) 0 = (-1)%Z.
Proof.
  intros Hd Hne. destruct d as [|c d]; [congruence|].
  inversion Hd as [|? ? Hc _]; subst. simpl app.
  now rewrite scan_digit by (assumption || lia).
Qed.

Lemma scan_run (p d rest : list ascii) :
  no_digits p -> p <> [] -> all_digits d -> d <> [] ->
  scan (p ++ d ++ rest) 0 = Z.of_nat (length p).
Proof.
  intros Hp Hpne Hd Hne. rewrite scan_no_digits by (assumption || lia).
  destruct d as [|c d]; [congruence|]. inversion Hd as [|? ? Hc _]; subst.
  simpl app. rewrite scan_digit by (assumption || lia).
  assert (0 < length p)%nat by (destruct p; simpl; [congruence|lia]).
  destruct (Z.eqb_spec (0 + Z.of_nat (length p)) 0); lia.
Qed.

Lemma slice_framed (p d s : list ascii) (lo hi : option Z) :
  (lo = None /\ p = [] \/ lo = Some (Z.of_nat (length p))) ->
  (hi = None /\ s = [] \/ hi = Some (- Z.of_nat (length s))%Z /\ s <> []) ->
  slice lo hi (of_chars (p ++ d ++ s)) = of_chars d.
Proof.
  intros Hlo Hhi. unfold slice. rewrite chars_of_chars.
  rewrite !length_app.
  set (len := Z.of_nat (length p + (length d + length s))).
  assert (Ha : match lo with Some i => slice_index len i | None => 0%Z end
               = Z.of_nat (length p)).
  { destruct Hlo as [[-> ->]| ->]; [reflexivity|].
    unfold slice_index, len.
    destruct (Z.ltb_spec (Z.of_nat (length p)) 0); lia. }
  assert (Hb : match hi with Some i => slice_index len i | None => len end
               = Z.of_nat (length p + length d)).
  { destruct Hhi as [[-> ->]|[-> Hs]].
    - unfold len. simpl. f_equal. lia.
    - unfold slice_index, len.
      assert (0 < length s)%nat by (destruct s; simpl; [congruence|lia]).
      destruct (Z.ltb_spec (- Z.of_nat (length s)) 0); lia. }
  rewrite Ha, Hb.
  replace (Z.to_nat (Z.of_nat (length p + length d) - Z.of_nat (length p)))
    with (length d) by lia.
  rewrite Nat2Z.id, drop_app_length, take_app_length. reflexivity.
Qed.

Lemma isdigit_all (s : string) : isdigit s = true -> all_digits (chars s).
Proof.
  unfold isdigit, all_digits. destruct (chars s) as [|c l]; [discriminate|].
  intros H. apply List.Forall_forall. now apply forallb_forall.
Qed.

Lemma isdigit_bare (d : list ascii) :
  all_digits d -> d <> [] -> isdigit (of_chars d) = true.
Proof.
  intros Hd Hne. apply isdigit_all_digits; rewrite chars_of_chars; assumption.
Qed.

Lemma isdigit_framed (p d s : list ascii) :
  no_digits p -> no_digits s -> p <> [] \/ s <> [] ->
  isdigit (of_chars (p ++ d ++ s)) = false.
Proof.
  intros Hp Hs Hne. apply not_true_is_false. intros H.
  apply isdigit_all in H. rewrite chars_of_chars in H.
  apply Forall_app in H as [H1 H]. apply Forall_app in H as [_ H2].
  destruct Hne as [Hne|Hne].
  - destruct p as [|c p]; [congruence|].
    inversion H1 as [|? ? Hc _]; subst.
    inversion Hp as [|? ? Hc' _]; subst. congruence.
  - destruct s as [|c s]; [congruence|].
    inversion H2 as [|? ? Hc _]; subst.
    inversion Hs as [|? ? Hc' _]; subst. congruence.
Qed.

Lemma no_digits_rev (l : list ascii) : no_digits l -> no_digits (rev l).
Proof. unfold no_digits. intros H. now apply Forall_rev. Qed.

Lemma rev_nonempty (l : list ascii) : l <> [] -> rev l <> [].
Proof.
  intros Hne E. apply (f_equal (@rev ascii)) in E.
  rewrite rev_involutive in E. contradiction.
Qed.

Lemma length_not_minus_one (l : list ascii) :
  (Z.of_nat (length l) =? -1)%Z = false.
Proof. apply Z.eqb_neq. lia. Qed.

Lemma length_not_negative (l : list ascii) :
  (0 <=? Z.of_nat (length l))%Z = true.
Proof. apply Z.leb_le. lia. Qed.

(** [parse] on digits framed by a prefix and a suffix that hold no digit:
    both are cut off and the digits are read. *)
Lemma n_parse_framed (p d s : list ascii) :
  no_digits p -> no_digits s -> all_digits d -> d <> [] ->
  n_parse (of_chars (p ++ d ++ s))
  = rbind (int (of_chars d)) (fun z => Ok (VInt z)).
Proof.
  intros Hp Hs Hd Hne. unfold n_parse. rewrite chars_of_chars.
  assert (Hrev : rev (p ++ d ++ s) = (rev s ++ rev d ++ rev p)%list).
  { now rewrite !rev_app_distr, <- app_assoc. }
  rewrite Hrev. clear Hrev.
  pose proof (all_digits_rev d Hd) as Hrd.
  pose proof (rev_nonempty d Hne) as Hrne.
  destruct (decide (p = [])) as [->|Hpne];
    destruct (decide (s = [])) as [->|Hsne].
  - simpl. rewrite app_nil_r. now rewrite (isdigit_bare d Hd Hne).
  - rewrite isdigit_framed by (assumption || now right).
    rewrite (scan_run_empty d s Hd Hne
             : scan ([] ++ d ++ s) 0 = (-1)%Z).
    rewrite (scan_run (rev s) (rev d) (rev []) (no_digits_rev s Hs)
               (rev_nonempty s Hsne) Hrd Hrne).
    rewrite length_rev, length_not_negative. simpl.
    apply (f_equal (fun x => rbind (int x) (fun z => Ok (VInt z)))).
    apply (slice_framed [] d s); [now left | now right].
  - rewrite isdigit_framed by (assumption || now left).
    rewrite (scan_run p d [] Hp Hpne Hd Hne).
    rewrite (scan_run_empty (rev d) (rev p) Hrd Hrne
             : scan (rev [] ++ rev d ++ rev p) 0 = (-1)%Z).
    rewrite length_not_minus_one, length_not_negative. simpl.
    apply (f_equal (fun x => rbind (int x) (fun z => Ok (VInt z)))).
    apply (slice_framed p d []); [now right | now left].
  - rewrite isdigit_framed by (assumption || now left).
    rewrite (scan_run p d s Hp Hpne Hd Hne).
    rewrite (scan_run (rev s) (rev d) (rev p) (no_digits_rev s Hs)
               (rev_nonempty s Hsne) Hrd Hrne).
    rewrite length_rev, !length_not_minus_one, !length_not_negative. simpl.
    apply (f_equal (fun x => rbind (int x) (fun z => Ok (VInt z)))).
    apply (slice_framed p d s); [now right | now right].
Qed.

(** *** solve *)

Lemma n_solve_decimal (name : string) (dflt : Z) (p s : string) (w n : Z) :
  (0 <= n)%Z ->
  n_solve (VInt n)
    {| n_name := name; n_default := dflt; prefix := VStr p;
       suffix := VStr s; padding := w |}
  = p +:+ zero_padded w (decimal n) +:+ s.
Proof.
  intros Hn. unfold n_solve. simpl. rewrite (str_int_decimal n Hn).
  now rewrite (zfill_digits w (decimal n) (decimal_all_digits n)).
Qed.

Lemma framed (p d s : string) :
  p +:+ d +:+ s = of_chars (chars p ++ chars d ++ chars s).
Proof. now rewrite !of_chars_app, !of_chars_chars. Qed.

(** C7. For a natural number, [solve] returns the prefix, then the decimal
    digits of the number with zeros in front of them, then the suffix.
    The padded digits are never shorter than the digits and never shorter
    than the padding: their length is the larger of the two. The same
    holds for the [TokenNumber] of naming.py that [add_token_number]
    builds. *)
Theorem C7_solve_pads_digits (name : string) (dflt : Z) (p s : string)
    (w n : Z) :
  (0 <= n)%Z ->
  n_solve (VInt n)
    {| n_name := name; n_default := dflt; prefix := VStr p;
       suffix := VStr s; padding := w |}
  = p +:+ zero_padded w (decimal n) +:+ s
  /\ Naming.TokenNumber_solve (VInt n)
       (Naming.add_option "suffix" (VStr s)
          (Naming.add_option "padding" (VInt w)
             (Naming.add_option "prefix" (VStr p)
                (Naming.TokenNumber_init name))))
     = Ok (p +:+ zero_padded w (decimal n) +:+ s)
  /\ int (decimal n) = Ok n
  /\ Z.of_nat (String.length (zero_padded w (decimal n)))
     = Z.max w (Z.of_nat (String.length (decimal n))).
Proof.
  intros Hn. repeat split.
  - now apply n_solve_decimal.
  - unfold Naming.TokenNumber_solve. simpl.
    rewrite (str_int_decimal n Hn).
    now rewrite (zfill_digits w (decimal n) (decimal_all_digits n)).
  - apply int_of_digits.
    + apply decimal_all_digits.
    + apply decimal_nonempty.
    + now apply int_digits_decimal.
  - apply zero_padded_length.
Qed.

Lemma C7_solve_pads_digits_witness :
  n_solve (VInt 12345)
    {| n_name := "version"; n_default := 1; prefix := VStr "v";
       suffix := VStr ""; padding := 3 |}
  = "v" +:+ zero_padded 3 (decimal 12345) +:+ "".
Proof.
  apply (proj1 (C7_solve_pads_digits "version" 1 "v" "" 3 12345
                  ltac:(lia))).
Defined.

(** C8. The guard of the [prefix] and [suffix] setters is false for every
    [str], so the setters leave the token as it is, and the token that
    [add_token_number] makes from a [str] prefix and suffix has the empty
    prefix and suffix of the constructor. *)
Theorem C8_str_prefix_suffix_ignored (name pre suf : string) (pad : Z)
    (_tokens : gmap string token) (t : TokenNumber) :
  set_prefix (VStr pre) t = Ok t
  /\ set_suffix (VStr suf) t = Ok t
  /\ exists made,
       add_token_number name (VStr pre) (VStr suf) pad _tokens
       = (Ok made, <[name := ANumber made]> _tokens)
       /\ prefix made = VStr "" /\ suffix made = VStr "".
Proof.
  split; [reflexivity|]. split; [reflexivity|].
  exists (set_padding pad (TokenNumber_init name)).
  repeat split.
Qed.

(** C2 as stated fails when the prefix holds a digit: with prefix [v2] and
    padding 3 the number 1 is solved to [v2001], which is parsed to 2001.
    The token of naming.py that [add_token_number] makes with that prefix
    does the same. A digit that is not decimal does as much harm: with
    the superscript two (code 178) as prefix, what [solve] makes of 1
    passes [isdigit] as a whole, and [int] refuses it. *)
Lemma C2_digit_in_prefix :
  let t := {| n_name := "version"; n_default := 1; prefix := VStr "v2";
              suffix := VStr ""; padding := 3 |} in
  let t' := {| n_name := "version"; n_default := 1;
               prefix := VStr (String "178"%char "");
               suffix := VStr ""; padding := 3 |} in
  n_solve (VInt 1) t = "v2001"
  /\ n_parse (n_solve (VInt 1) t) = Ok (VInt 2001)
  /\ Naming.TokenNumber_solve (VInt 1)
       (Naming.add_option "suffix" (VStr "")
          (Naming.add_option "padding" (VInt 3)
             (Naming.add_option "prefix" (VStr "v2")
                (Naming.TokenNumber_init "version"))))
     = Ok "v2001"
  /\ Naming.TokenNumber_parse "v2001" = Ok (VInt 2001)
  /\ n_solve (VInt 1) t' = String "178"%char "001"
  /\ n_parse (n_solve (VInt 1) t') = Raise ValueError.
Proof. repeat split. Qed.

(** C2, amended. When neither the prefix nor the suffix holds a character
    that [isdigit] accepts (either may be empty), [parse] returns every
    natural number from what [solve] made of it, for every padding. *)
Theorem C2_parse_inverts_solve (name : string) (dflt : Z) (p s : string)
    (w n : Z) :
  (0 <= n)%Z -> no_digits (chars p) -> no_digits (chars s) ->
  n_parse (n_solve (VInt n)
             {| n_name := name; n_default := dflt; prefix := VStr p;
                suffix := VStr s; padding := w |})
  = Ok (VInt n).
Proof.
  intros Hn Hp Hs. rewrite (n_solve_decimal name dflt p s w n Hn).
  rewrite framed. rewrite n_parse_framed.
  - rewrite of_chars_chars. now rewrite (int_zero_padded w n Hn).
  - exact Hp.
  - exact Hs.
  - apply zero_padded_all_digits, decimal_all_digits.
  - apply zero_padded_nonempty, decimal_nonempty.
Qed.

Lemma C2_parse_inverts_solve_witness :
  n_parse (n_solve (VInt 25)
             {| n_name := "version"; n_default := 1; prefix := VStr "v";
                suffix := VStr ""; padding := 3 |})
  = Ok (VInt 25).
Proof.
  apply (C2_parse_inverts_solve "version" 1 "v" "" 3 25).
  - lia.
  - repeat constructor.
  - constructor.
Defined.

End NumberSpec.

(** ** naming.py: the rule registry *)

Module RegistrySpec.
Import Wording Naming.

Ltac run :=
  unfold bind, ret, raise, lift, rules, tokens, set_rules, set_tokens;
  simpl.

Lemma has_rule_run (name : string) (s : session) :
  has_rule name s
  = (Ok (match _rules s !! name with Some _ => true | None => false end), s).
Proof. reflexivity. Qed.

Lemma get_active_rule_run (s : session) :
  get_active_rule s
  = (match _rules s !! "_active" with
     | Some key => Ok (rules_get key (_rules s))
     | None => Raise (KeyError (VStr "_active"))
     end, s).
Proof.
  unfold get_active_rule. run. now destruct (_rules s !! "_active").
Qed.

Lemma set_active_rule_run (name : string) (s : session) :
  set_active_rule name s
  = match _rules s !! name with
    | Some _ => (Ok true, {| _rules := <["_active" := EName name]> (_rules s);
                             _tokens := _tokens s |})
    | None => (Ok false, s)
    end.
Proof.
  unfold set_active_rule. unfold bind at 1. rewrite has_rule_run.
  now destruct (_rules s !! name).
Qed.

Lemma remove_rule_run (name : string) (s : session) :
  remove_rule name s
  = match _rules s !! name with
    | Some _ => (Ok true, {| _rules := delete name (_rules s);
                             _tokens := _tokens s |})
    | None => (Ok false, s)
    end.
Proof.
  unfold remove_rule. unfold bind at 1. rewrite has_rule_run.
  now destruct (_rules s !! name).
Qed.

Lemma reset_rules_run (s : session) :
  reset_rules s
  = (Ok true, {| _rules := <["_active" := ENone]> ∅; _tokens := _tokens s |}).
Proof. reflexivity. Qed.

Lemma load_rule_run (content : rule_file) (s : session) :
  load_rule content s
  = match content with
    | RuleData rule =>
        (Ok true, {| _rules := <[r_name rule := ERule rule]> (_rules s);
                     _tokens := _tokens s |})
    | OtherData => (Raise AttributeError, s)
    | NoJSON => (Ok false, s)
    end.
Proof. now destruct content. Qed.

(** [add_rule]: the rule is stored; then, if the key ["_active"] is there
    and no rule is active, the name is stored under ["_active"]. *)
Lemma add_rule_run (name : string) (fs : list string) (s : session) :
  let rule := Rule_init name fs in
  let stored := <[name := ERule rule]> (_rules s) in
  add_rule name fs s
  = match stored !! "_active" with
    | None => (Raise (KeyError (VStr "_active")),
               {| _rules := stored; _tokens := _tokens s |})
    | Some key =>
        if is_ENone (rules_get key stored)
        then (Ok rule, {| _rules := <["_active" := EName name]> stored;
                          _tokens := _tokens s |})
        else (Ok rule, {| _rules := stored; _tokens := _tokens s |})
    end.
Proof.
  intros rule stored. unfold add_rule. fold rule.
  unfold bind at 1. unfold rules at 1.
  unfold bind at 1. unfold set_rules at 1. fold stored.
  unfold bind at 1. rewrite get_active_rule_run. simpl _rules.
  destruct (stored !! "_active") as [key|]; [|reflexivity].
  destruct (is_ENone (rules_get key stored)).
  - unfold bind at 1. rewrite set_active_rule_run. simpl _rules.
    unfold stored at 1. rewrite lookup_insert_eq. reflexivity.
  - reflexivity.
Qed.

Lemma has_active_key_initial : has_active_key initial.
Proof.
  unfold has_active_key, initial. simpl. now rewrite lookup_singleton_eq.
Qed.

Lemma has_active_key_insert (k : string) (e : entry) (r : gmap string entry) :
  is_Some (r !! "_active") -> is_Some (<[k := e]> r !! "_active").
Proof.
  intros H. destruct (decide (k = "_active")) as [->|Hne].
  - rewrite lookup_insert_eq. eauto.
  - now rewrite lookup_insert_ne.
Qed.

(** Every call but [remove_rule("_active")] keeps the key. *)
Lemma has_active_key_step (c : call) (s : session) :
  c <> CallRemoveRule "_active" ->
  has_active_key s -> has_active_key (run_call c s).
Proof.
  unfold has_active_key. intros Hc Hs.
  destruct c as [name fs|name| |name|content]; cbn [run_call].
  - pose proof (add_rule_run name fs s) as E. cbv zeta in E. rewrite E.
    assert (Hst : is_Some (<[name := ERule (Rule_init name fs)]> (_rules s)
                           !! "_active"))
      by now apply has_active_key_insert.
    destruct Hst as [key Hkey]. rewrite Hkey.
    destruct (is_ENone _); simpl.
    + rewrite lookup_insert_eq. eauto.
    + rewrite Hkey. eauto.
  - rewrite remove_rule_run.
    destruct (_rules s !! name); simpl; [|assumption].
    rewrite lookup_delete_ne; [assumption|]. congruence.
  - rewrite reset_rules_run. simpl. rewrite lookup_insert_eq. eauto.
  - rewrite set_active_rule_run.
    destruct (_rules s !! name); simpl; [|assumption].
    rewrite lookup_insert_eq. eauto.
  - rewrite load_rule_run. destruct content; simpl; [assumption..|].
    now apply has_active_key_insert.
Qed.

Lemma has_active_key_run_calls (cs : list call) (s : session) :
  Forall (fun c => c <> CallRemoveRule "_active") cs ->
  has_active_key s -> has_active_key (run_calls cs s).
Proof.
  intros Hcs. revert s. unfold run_calls.
  induction Hcs as [|c cs Hc _ IH]; intros s Hs; simpl; [assumption|].
  apply IH. now apply has_active_key_step.
Qed.

(** C10 as stated fails: [remove_rule("_active")] finds the key and
    deletes it, and in the state it leaves [has_rule("_active")] is
    [False], [set_active_rule("_active")] fails and [get_active_rule()]
    raises [KeyError]. *)
Lemma C10_active_key_removed :
  let s := run_calls [CallRemoveRule "_active"] initial in
  fst (remove_rule "_active" initial) = Ok true
  /\ fst (has_rule "_active" s) = Ok false
  /\ fst (set_active_rule "_active" s) = Ok false
  /\ fst (get_active_rule s) = Raise (KeyError (VStr "_active")).
Proof. repeat split. Qed.

(** C10, amended. In the state at import, and in every state reached from
    it by [add_rule], [set_active_rule], [reset_rules], [load_rule] and
    [remove_rule] of a name other than ["_active"], [has_rule("_active")]
    is [True] and [set_active_rule("_active")] succeeds; the same holds
    right after a [reset_rules]. *)
Theorem C10_active_key_counts_as_rule (cs : list call) :
  Forall (fun c => c <> CallRemoveRule "_active") cs ->
  let s := run_calls cs initial in
  fst (has_rule "_active" s) = Ok true
  /\ fst (set_active_rule "_active" s) = Ok true
  /\ fst (has_rule "_active" (snd (reset_rules s))) = Ok true.
Proof.
  intros Hcs s.
  assert (Hs : has_active_key s).
  { apply has_active_key_run_calls; [assumption|apply has_active_key_initial]. }
  destruct Hs as [key Hkey]. split; [|split].
  - rewrite has_rule_run. now rewrite Hkey.
  - rewrite set_active_rule_run. now rewrite Hkey.
  - rewrite reset_rules_run, has_rule_run. simpl.
    now rewrite lookup_insert_eq.
Qed.

Lemma C10_active_key_counts_as_rule_witness :
  let s := run_calls [CallAddRule "asset" ["category"; "name"];
                      CallRemoveRule "asset"; CallResetRules] initial in
  fst (has_rule "_active" s) = Ok true
  /\ fst (set_active_rule "_active" s) = Ok true
  /\ fst (has_rule "_active" (snd (reset_rules s))) = Ok true.
Proof.
  apply (C10_active_key_counts_as_rule
           [CallAddRule "asset" ["category"; "name"];
            CallRemoveRule "asset"; CallResetRules]).
  repeat constructor; discriminate.
Defined.

(** C6 as stated fails for the name ["_active"]: the rule overwrites the
    pointer, and what [get_active_rule()] then returns is the name
    ["_active"], not the rule. *)
Lemma C6_rule_named_active :
  let s := snd (add_rule "_active" ["category"] initial) in
  fst (get_active_rule initial) = Ok ENone
  /\ fst (add_rule "_active" ["category"] initial)
     = Ok (Rule_init "_active" ["category"])
  /\ fst (get_active_rule s) = Ok (EName "_active").
Proof. repeat split. Qed.

(** C6, amended. [add_rule] with a name other than ["_active"], in a state
    where [get_active_rule()] is [None], returns the new rule and makes it
    the one [get_active_rule()] returns. [remove_rule] of the active rule
    returns [True], deletes the rule and leaves its name under
    ["_active"], so that [get_active_rule()] returns [None]. *)
Theorem C6_add_rule_activates_remove_rule_dangles (s : session)
    (name : string) (fs : list string) :
  (name <> "_active" -> fst (get_active_rule s) = Ok ENone ->
   fst (add_rule name fs s) = Ok (Rule_init name fs)
   /\ fst (get_active_rule (snd (add_rule name fs s)))
      = Ok (ERule (Rule_init name fs)))
  /\ (forall r : Rule,
        _rules s !! "_active" = Some (EName name) ->
        _rules s !! name = Some (ERule r) ->
        fst (get_active_rule s) = Ok (ERule r)
        /\ fst (remove_rule name s) = Ok true
        /\ _rules (snd (remove_rule name s)) !! name = None
        /\ _rules (snd (remove_rule name s)) !! "_active" = Some (EName name)
        /\ fst (get_active_rule (snd (remove_rule name s))) = Ok ENone).
Proof.
  split.
  - intros Hne Hnone. rewrite get_active_rule_run in Hnone. simpl in Hnone.
    destruct (_rules s !! "_active") as [key|] eqn:Hkey; [|discriminate].
    injection Hnone as Hget.
    pose proof (add_rule_run name fs s) as E. cbv zeta in E. rewrite E.
    clear E.
    rewrite lookup_insert_ne by assumption. rewrite Hkey.
    assert (Hstill : is_ENone (rules_get key
              (<[name := ERule (Rule_init name fs)]> (_rules s))) = true
            \/ rules_get key (<[name := ERule (Rule_init name fs)]> (_rules s))
               = ERule (Rule_init name fs)).
    { destruct key as [|n|r]; simpl; try (now left).
      destruct (decide (name = n)) as [<-|Hn].
      - right. now rewrite lookup_insert_eq.
      - left. rewrite lookup_insert_ne by assumption.
        simpl in Hget. now rewrite Hget. }
    destruct Hstill as [Hstill|Hstill].
    + rewrite Hstill. simpl. split; [reflexivity|].
      rewrite get_active_rule_run. simpl.
      rewrite lookup_insert_eq. simpl.
      rewrite lookup_insert_ne by congruence.
      now rewrite lookup_insert_eq.
    + rewrite Hstill. simpl. split; [reflexivity|].
      rewrite get_active_rule_run. simpl.
      rewrite lookup_insert_ne by assumption. rewrite Hkey.
      now rewrite Hstill.
  - intros r Hkey Hrule.
    assert (Hne : name <> "_active") by (intros ->; congruence).
    rewrite get_active_rule_run, remove_rule_run. rewrite Hkey, Hrule. simpl.
    rewrite Hrule. simpl. repeat split.
    + apply lookup_delete_eq.
    + rewrite lookup_delete_ne by assumption. exact Hkey.
    + rewrite get_active_rule_run. simpl.
      rewrite lookup_delete_ne by assumption. rewrite Hkey. simpl.
      now rewrite lookup_delete_eq.
Qed.

Lemma C6_add_rule_activates_remove_rule_dangles_witness :
  let s := snd (add_rule "asset" ["category"; "name"] initial) in
  fst (get_active_rule s) = Ok (ERule (Rule_init "asset" ["category"; "name"]))
  /\ fst (get_active_rule (snd (remove_rule "asset" s))) = Ok ENone.
Proof.
  split.
  - apply (proj1 (C6_add_rule_activates_remove_rule_dangles initial "asset"
                    ["category"; "name"])); [discriminate | reflexivity].
  - apply (proj2 (C6_add_rule_activates_remove_rule_dangles
                    (snd (add_rule "asset" ["category"; "name"] initial))
                    "asset" [])
             (Rule_init "asset" ["category"; "name"])); reflexivity.
Defined.

End RegistrySpec.

(** ** naming.py: tokens, solve and parse *)

Module SessionSpec.
Import Naming.

(** [Token.parse] of naming.py: the key of the first option whose
    abbreviation is [value]. *)
Lemma Token_parse_first_key (t : Token) (value : string)
    (before after : odict pyval) (k : string) :
  _options t = (before ++ (k, VStr value) :: after)%list ->
  (forall k' v', In (k', v') before -> v' <> VStr value) ->
  Token_parse (VStr value) t = VStr k.
Proof.
  intros Ho Hfirst. unfold Token_parse. rewrite Ho.
  now rewrite TokensSpec.first_key_first.
Qed.

(** C4. [Token.parse] of tokens.py does what the claim says: it returns
    the key of the first option whose abbreviation is [value], and [value]
    itself when no option has that abbreviation. [Token.parse] of
    naming.py returns the same key in the first case, but when no option
    has the abbreviation it returns [None] and not [value]; so it does
    for the token with the one option left -> L and the value ["X"]. *)
Theorem C4_parse_first_key_or_value (value : string) :
  (forall (t : Tokens.Token) before after k,
     Tokens._options t = (before ++ (k, VStr value) :: after)%list ->
     (forall k' v', In (k', v') before -> v' <> VStr value) ->
     Tokens.parse (VStr value) t = VStr k)
  /\ (forall t : Tokens.Token,
        (forall k v, In (k, v) (Tokens._options t) -> v <> VStr value) ->
        Tokens.parse (VStr value) t = VStr value)
  /\ (forall (t : Token) before after k,
        _options t = (before ++ (k, VStr value) :: after)%list ->
        (forall k' v', In (k', v') before -> v' <> VStr value) ->
        Token_parse (VStr value) t = VStr k)
  /\ (forall t : Token,
        (forall k v, In (k, v) (_options t) -> v <> VStr value) ->
        Token_parse (VStr value) t = VNone)
  /\ Token_parse (VStr "X") (add_option "left" (VStr "L") (Token_init "side"))
     = VNone.
Proof.
  split; [|split; [|split; [|split]]].
  - intros t. apply (proj1 (TokensSpec.parse_first_key_or_value t value)).
  - intros t. apply (proj2 (TokensSpec.parse_first_key_or_value t value)).
  - intros t. apply Token_parse_first_key.
  - intros t Hnone. unfold Token_parse.
    now rewrite TokensSpec.first_key_none.
  - reflexivity.
Qed.

Lemma C4_parse_first_key_or_value_witness :
  let options :=
    [("left", VStr "L"); ("right", VStr "R"); ("rear", VStr "R")] in
  Tokens.parse (VStr "R")
    {| Tokens._name := "side"; Tokens._default := VNone;
       Tokens._options := options |} = VStr "right"
  /\ Tokens.parse (VStr "X")
       {| Tokens._name := "side"; Tokens._default := VNone;
          Tokens._options := options |} = VStr "X"
  /\ Token_parse (VStr "X")
       {| class_of := ClsToken; _name := "side"; _default := VNone;
          _options := options |} = VNone.
Proof.
  intros options. split; [|split].
  - apply (proj1 (C4_parse_first_key_or_value "R") _
             [("left", VStr "L")] [("rear", VStr "R")] "right").
    + reflexivity.
    + intros k' v' [H|[]]. injection H as _ <-. discriminate.
  - apply (proj1 (proj2 (C4_parse_first_key_or_value "X"))).
    simpl. intros k v [H|[H|[H|[]]]]; injection H as _ <-; discriminate.
  - apply (proj1 (proj2 (proj2 (proj2 (C4_parse_first_key_or_value "X"))))).
    simpl. intros k v [H|[H|[H|[]]]]; injection H as _ <-; discriminate.
Defined.

(** *** One turn of the loops of solve and parse *)

Lemma get_active_rule_keeps (s : session) (r : result entry) :
  fst (get_active_rule s) = r -> get_active_rule s = (r, s).
Proof.
  rewrite RegistrySpec.get_active_rule_run. simpl. now intros ->.
Qed.

Lemma token_item_run (f : string) (token : Token) (s : session) :
  _tokens s !! f = Some token -> token_item f s = (Ok token, s).
Proof.
  intros H. unfold token_item, bind, tokens, ret. now rewrite H.
Qed.

(** Reading a property that leaves the token as it is leaves the session
    as it is. *)
Lemma on_token_same {A} (f : string) (read : Token -> result A * Token)
    (token : Token) (a : result A) (s : session) :
  _tokens s !! f = Some token -> read token = (a, token) ->
  on_token f read token s = (a, s).
Proof.
  intros Hf Hread. unfold on_token. rewrite Hread.
  unfold bind, tokens, set_tokens, lift. f_equal.
  destruct s as [r t]. simpl in *. f_equal. now apply insert_id.
Qed.

Section Turns.
Variables (f : string) (token : Token) (s : session).
Hypothesis Hf : _tokens s !! f = Some token.

Lemma solve_loop_required_named (args : list pyval)
    (kwargs values : gmap string pyval) (i : nat) (fs : list string) :
  is_number token = false -> required token = (Ok true, token) ->
  given kwargs f = true ->
  solve_loop args kwargs i (f :: fs) values s
  = solve_loop args kwargs i fs (<[f := dict_get f kwargs]> values) s.
Proof.
  intros Hnum Hreq Hgiven. cbn [solve_loop].
  unfold bind at 1. rewrite (token_item_run f token s Hf). rewrite Hnum.
  unfold bind at 1. rewrite (on_token_same f required token (Ok true) s Hf Hreq).
  now rewrite Hgiven.
Qed.

Lemma solve_loop_number_named (args : list pyval)
    (kwargs values : gmap string pyval) (i : nat) (fs : list string)
    (piece : string) :
  is_number token = true -> given kwargs f = true ->
  TokenNumber_solve (dict_get f kwargs) token = Ok piece ->
  solve_loop args kwargs i (f :: fs) values s
  = solve_loop args kwargs i fs (<[f := VStr piece]> values) s.
Proof.
  intros Hnum Hgiven Hpiece. cbn [solve_loop].
  unfold bind at 1. rewrite (token_item_run f token s Hf).
  rewrite Hnum, Hgiven. unfold bind at 1, lift. now rewrite Hpiece.
Qed.

Lemma parse_loop_required_raw (split_name : list string) (i : nat)
    (fs : list string) (retval : gmap string pyval) (name_part : string) :
  split_name !! i = Some name_part ->
  is_number token = false -> required token = (Ok true, token) ->
  parse_loop split_name i (f :: fs) retval s
  = parse_loop split_name (S i) fs (<[f := VStr name_part]> retval) s.
Proof.
  intros Hpart Hnum Hreq. cbn [parse_loop]. rewrite Hpart.
  unfold bind at 1. rewrite (token_item_run f token s Hf).
  unfold bind at 1. rewrite (on_token_same f required token (Ok true) s Hf Hreq).
  now rewrite Hnum.
Qed.

Lemma parse_loop_number (split_name : list string) (i : nat)
    (fs : list string) (retval : gmap string pyval) (name_part : string)
    (v : pyval) :
  split_name !! i = Some name_part ->
  is_number token = true -> required token = (Ok true, token) ->
  token_parse name_part token = Ok v ->
  parse_loop split_name i (f :: fs) retval s
  = parse_loop split_name (S i) fs (<[f := v]> retval) s.
Proof.
  intros Hpart Hnum Hreq Hv. cbn [parse_loop]. rewrite Hpart.
  unfold bind at 1. rewrite (token_item_run f token s Hf).
  unfold bind at 1. rewrite (on_token_same f required token (Ok true) s Hf Hreq).
  rewrite Hnum. unfold bind at 1, lift. now rewrite Hv.
Qed.

End Turns.

(** C1. In any session whose active rule has the fields category, name,
    version, where category and name are tokens without options and
    version is the number token that [add_token_number] makes with prefix
    [v] and padding 3: [solve(category="char", name="hero", version=1)]
    returns [char_hero_v001], [parse] of that name returns the mapping
    category -> "char", name -> "hero", version -> 1, and neither call
    changes the session. *)
Theorem C1_parse_solve_round_trip (s : session) (rule : Rule) :
  fst (get_active_rule s) = Ok (ERule rule) ->
  fields rule = ["category"; "name"; "version"] ->
  _tokens s !! "category" = Some (Token_init "category") ->
  _tokens s !! "name" = Some (Token_init "name") ->
  _tokens s !! "version"
  = Some (add_option "suffix" (VStr "")
            (add_option "padding" (VInt 3)
               (add_option "prefix" (VStr "v")
                  (TokenNumber_init "version")))) ->
  let kwargs : gmap string pyval :=
    <["category" := VStr "char"]>
      (<["name" := VStr "hero"]> (<["version" := VInt 1]> ∅)) in
  let mapping : gmap string pyval :=
    <["category" := VStr "char"]>
      (<["name" := VStr "hero"]> (<["version" := VInt 1]> ∅)) in
  solve [] kwargs s = (Ok "char_hero_v001", s)
  /\ parse "char_hero_v001" s = (Ok mapping, s)
  /\ (let* name := solve [] kwargs in parse name) s = (Ok mapping, s).
Proof.
  intros Hactive Hfields Hcategory Hname Hversion kwargs mapping.
  apply get_active_rule_keeps in Hactive.
  assert (Hsolve : solve [] kwargs s = (Ok "char_hero_v001", s)).
  { unfold solve. unfold bind at 1. rewrite Hactive.
    unfold bind at 1. cbn [as_rule]. unfold ret at 1.
    rewrite Hfields. unfold bind at 1.
    rewrite (solve_loop_required_named "category" _ s Hcategory)
      by reflexivity.
    rewrite (solve_loop_required_named "name" _ s Hname) by reflexivity.
    rewrite (solve_loop_number_named "version" _ s Hversion _ _ _ _ _ "v001")
      by reflexivity.
    cbn [solve_loop]. unfold ret at 1. unfold lift, Rule_solve, _pattern.
    rewrite Hfields. reflexivity. }
  assert (Hparse : parse "char_hero_v001" s = (Ok mapping, s)).
  { unfold parse. unfold bind at 1. rewrite Hactive.
    unfold bind at 1. cbn [as_rule]. unfold ret at 1.
    unfold Rule_parse. rewrite Hfields.
    change (split "_" "char_hero_v001") with ["char"; "hero"; "v001"].
    rewrite (parse_loop_required_raw "category" _ s Hcategory _ _ _ _ "char")
      by reflexivity.
    rewrite (parse_loop_required_raw "name" _ s Hname _ _ _ _ "hero")
      by reflexivity.
    rewrite (parse_loop_number "version" _ s Hversion _ _ _ _ "v001" (VInt 1))
      by reflexivity.
    cbn [parse_loop]. unfold ret. reflexivity. }
  split; [exact Hsolve|]. split; [exact Hparse|].
  unfold bind. now rewrite Hsolve.
Qed.

(** The session that the calls of the claim set up. *)
Lemma C1_parse_solve_round_trip_witness :
  let setup :=
    let* _ := add_token "category" [] in
    let* _ := add_token "name" [] in
    let* _ := add_token_number "version" (VStr "v") (VInt 3) (VStr "") in
    add_rule "asset" ["category"; "name"; "version"] in
  let s := snd (setup initial) in
  let kwargs : gmap string pyval :=
    <["category" := VStr "char"]>
      (<["name" := VStr "hero"]> (<["version" := VInt 1]> ∅)) in
  (let* name := solve [] kwargs in parse name) s
  = (Ok (<["category" := VStr "char"]>
           (<["name" := VStr "hero"]> (<["version" := VInt 1]> ∅))), s).
Proof.
  intros setup s kwargs.
  apply (C1_parse_solve_round_trip s
           (Rule_init "asset" ["category"; "name"; "version"]));
    reflexivity.
Defined.

End SessionSpec.

(** ** naming.py: more on the rule registry *)

Module RegistryExtra.
Import Wording Naming RegistrySpec.

Lemma get_rule_run (name : string) (s : session) :
  get_rule name s = (Ok (from_option id ENone (_rules s !! name)), s).
Proof. reflexivity. Qed.

(** [add_rule] of a name other than ["_active"] when no rule is stored
    under the pointer: the new rule becomes the active one. *)
Lemma add_rule_on_none (name : string) (fs : list string) (s : session) :
  name <> "_active" -> fst (get_active_rule s) = Ok ENone ->
  fst (get_active_rule (snd (add_rule name fs s)))
  = Ok (ERule (Rule_init name fs)).
Proof.
  intros Hne Hnone. rewrite get_active_rule_run in Hnone.
  cbn [fst] in Hnone.
  destruct (_rules s !! "_active") as [key|] eqn:Hkey; [|discriminate].
  injection Hnone as Hget.
  pose proof (add_rule_run name fs s) as E. cbv zeta in E. rewrite E. clear E.
  rewrite lookup_insert_ne by assumption. rewrite Hkey.
  destruct (is_ENone (rules_get key
              (<[name := ERule (Rule_init name fs)]> (_rules s)))) eqn:Hst;
    cbn [snd].
  - rewrite get_active_rule_run. simpl.
    rewrite lookup_insert_eq. simpl.
    rewrite lookup_insert_ne by congruence.
    now rewrite lookup_insert_eq.
  - rewrite get_active_rule_run. simpl.
    rewrite lookup_insert_ne by assumption. rewrite Hkey.
    destruct key as [|n|r]; simpl in *; try discriminate.
    destruct (decide (name = n)) as [<-|Hn].
    + now rewrite lookup_insert_eq.
    + rewrite lookup_insert_ne in Hst by assumption.
      rewrite Hget in Hst. discriminate.
Qed.

(** X1. [remove_rule] of a name that is not in the registry returns
    [False] and changes nothing. Of a name that is there it returns
    [True]; afterwards [has_rule] of the name is [False], every other
    entry is as before and the tokens are untouched. *)
Theorem remove_rule_absent_present (name : string) (s : session) :
  (_rules s !! name = None -> remove_rule name s = (Ok false, s))
  /\ (is_Some (_rules s !! name) ->
      fst (remove_rule name s) = Ok true
      /\ fst (has_rule name (snd (remove_rule name s))) = Ok false
      /\ (forall other, other <> name ->
            _rules (snd (remove_rule name s)) !! other = _rules s !! other)
      /\ _tokens (snd (remove_rule name s)) = _tokens s).
Proof.
  rewrite remove_rule_run. split.
  - now intros ->.
  - intros [e He]. rewrite He. cbn [fst snd]. repeat split.
    + rewrite has_rule_run. simpl. now rewrite lookup_delete_eq.
    + intros other Hne. simpl. now rewrite lookup_delete_ne.
Qed.

Lemma remove_rule_absent_present_witness :
  remove_rule "asset" initial = (Ok false, initial)
  /\ fst (remove_rule "asset" (snd (add_rule "asset" ["name"] initial)))
     = Ok true.
Proof.
  split.
  - apply (proj1 (remove_rule_absent_present "asset" initial)). reflexivity.
  - apply (proj2 (remove_rule_absent_present "asset"
                    (snd (add_rule "asset" ["name"] initial)))).
    now exists (ERule (Rule_init "asset" ["name"])).
Defined.

(** X2. [set_active_rule] of a name that is not in the registry returns
    [False] and changes nothing. Of a registered name other than
    ["_active"] it returns [True], [get_active_rule()] then returns what
    is registered under the name, and no other entry changes. *)
Theorem set_active_rule_absent_present (name : string) (s : session) :
  (_rules s !! name = None -> set_active_rule name s = (Ok false, s))
  /\ (forall e, name <> "_active" -> _rules s !! name = Some e ->
      fst (set_active_rule name s) = Ok true
      /\ fst (get_active_rule (snd (set_active_rule name s))) = Ok e
      /\ (forall other, other <> "_active" ->
            _rules (snd (set_active_rule name s)) !! other
            = _rules s !! other)).
Proof.
  rewrite set_active_rule_run. split.
  - now intros ->.
  - intros e Hne He. rewrite He. cbn [fst snd]. repeat split.
    + rewrite get_active_rule_run. simpl. rewrite lookup_insert_eq. simpl.
      rewrite lookup_insert_ne by congruence. now rewrite He.
    + intros other Hother. simpl.
      now rewrite lookup_insert_ne by congruence.
Qed.

Lemma set_active_rule_absent_present_witness :
  set_active_rule "shot" initial = (Ok false, initial)
  /\ fst (get_active_rule
            (snd (set_active_rule "shot"
                    (snd (add_rule "shot" ["name"]
                            (snd (add_rule "asset" ["name"] initial)))))))
     = Ok (ERule (Rule_init "shot" ["name"])).
Proof.
  split.
  - apply (proj1 (set_active_rule_absent_present "shot" initial)).
    reflexivity.
  - apply (proj2 (set_active_rule_absent_present "shot"
                    (snd (add_rule "shot" ["name"]
                            (snd (add_rule "asset" ["name"] initial)))))
             (ERule (Rule_init "shot" ["name"])));
      [discriminate | reflexivity].
Defined.

(** X3. [add_rule] activates only when no rule is active: with the rule
    [r] active under the name [n], adding a rule of another name (not
    ["_active"]) registers the new rule and leaves [r] the active one. *)
Theorem add_rule_keeps_active (name n : string) (fs : list string)
    (r : Rule) (s : session) :
  name <> "_active" -> name <> n ->
  _rules s !! "_active" = Some (EName n) ->
  _rules s !! n = Some (ERule r) ->
  fst (add_rule name fs s) = Ok (Rule_init name fs)
  /\ fst (get_rule name (snd (add_rule name fs s)))
     = Ok (ERule (Rule_init name fs))
  /\ fst (get_active_rule (snd (add_rule name fs s))) = Ok (ERule r).
Proof.
  intros Hname Hn Hkey Hr.
  pose proof (add_rule_run name fs s) as E. cbv zeta in E. rewrite E. clear E.
  rewrite lookup_insert_ne by assumption. rewrite Hkey. cbn [rules_get].
  rewrite lookup_insert_ne by congruence. rewrite Hr.
  cbn [from_option id is_ENone fst snd].
  repeat split.
  - rewrite get_rule_run. simpl. now rewrite lookup_insert_eq.
  - rewrite get_active_rule_run. simpl.
    rewrite lookup_insert_ne by assumption. rewrite Hkey. simpl.
    rewrite lookup_insert_ne by congruence. now rewrite Hr.
Qed.

Lemma add_rule_keeps_active_witness :
  let s := snd (add_rule "asset" ["name"] initial) in
  fst (get_active_rule (snd (add_rule "shot" ["name"; "version"] s)))
  = Ok (ERule (Rule_init "asset" ["name"])).
Proof.
  intros s.
  apply (add_rule_keeps_active "shot" "asset" ["name"; "version"]
           (Rule_init "asset" ["name"]) s);
    (discriminate || reflexivity).
Defined.

(** X4. [reset_rules] brings the rule registry of any session back to the
    one at import and leaves the tokens alone: no rule is active, no name
    but ["_active"] is found, and the next [add_rule] (of a name other
    than ["_active"]) is activated. *)
Theorem reset_rules_starts_over (s : session) (name : string)
    (fs : list string) :
  let s0 := snd (reset_rules s) in
  _rules s0 = _rules initial
  /\ _tokens s0 = _tokens s
  /\ fst (get_active_rule s0) = Ok ENone
  /\ (name <> "_active" ->
      fst (has_rule name s0) = Ok false
      /\ fst (get_active_rule (snd (add_rule name fs s0)))
         = Ok (ERule (Rule_init name fs))).
Proof.
  intros s0. subst s0. rewrite reset_rules_run. cbn [snd].
  split; [reflexivity|]. split; [reflexivity|]. split; [reflexivity|].
  intros Hne. split.
  - rewrite has_rule_run. simpl.
    rewrite lookup_insert_ne by congruence. now rewrite lookup_empty.
  - apply add_rule_on_none; [assumption | reflexivity].
Qed.

Lemma reset_rules_starts_over_witness :
  let s := snd (add_rule "asset" ["name"] initial) in
  fst (has_rule "asset" (snd (reset_rules s))) = Ok false.
Proof.
  intros s.
  apply (proj1 (proj2 (proj2 (proj2
           (reset_rules_starts_over s "asset" [])))
         ltac:(discriminate))).
Defined.



(** *** What the calls keep *)

Lemma registry_ok_initial : registry_ok initial.
Proof.
  split.
  - left. reflexivity.
  - intros k e Hk He. unfold initial in He. simpl in He.
    rewrite lookup_singleton_ne in He by congruence. discriminate.
Qed.

Lemma rules_named_insert (s : session) (r : Rule) (t : gmap string Token) :
  r_name r <> "_active" -> rules_named s ->
  rules_named {| _rules := <[r_name r := ERule r]> (_rules s); _tokens := t |}.
Proof.
  intros Hne Hs k e Hk He. simpl in He.
  destruct (decide (r_name r = k)) as [E|E].
  - rewrite E in He. rewrite lookup_insert_eq in He. injection He as <-.
    now exists r.
  - rewrite lookup_insert_ne in He by assumption. now apply (Hs k e).
Qed.

Lemma rules_named_pointer (s : session) (p : entry) (t : gmap string Token) :
  rules_named s ->
  rules_named {| _rules := <["_active" := p]> (_rules s); _tokens := t |}.
Proof.
  intros Hs k e Hk He. simpl in He.
  rewrite lookup_insert_ne in He by congruence. now apply (Hs k e).
Qed.

Lemma registry_ok_step (c : call) (s : session) :
  call_name c <> Some "_active" ->
  registry_ok s -> registry_ok (run_call c s).
Proof.
  intros Hc [Hp Hn].
  destruct c as [name fs|name| |name|[| |r]]; cbn [run_call call_name] in *.
  - assert (Hne : name <> "_active") by congruence.
    pose proof (add_rule_run name fs s) as E. cbv zeta in E. rewrite E.
    clear E. rewrite lookup_insert_ne by assumption.
    pose proof (rules_named_insert s (Rule_init name fs) (_tokens s) Hne Hn)
      as Hstored. cbn [Rule_init r_name] in Hstored.
    assert (Hkey : is_Some (_rules s !! "_active")).
    { destruct Hp as [->|(n & _ & ->)]; eauto. }
    destruct Hkey as [key Hkey]. rewrite Hkey.
    destruct (is_ENone _); cbn [snd].
    + split.
      * right. exists name. split; [assumption|]. simpl.
        now rewrite lookup_insert_eq.
      * exact (rules_named_pointer _ (EName name) (_tokens s) Hstored).
    + split; [|assumption].
      unfold pointer_ok. simpl. rewrite lookup_insert_ne by assumption.
      exact Hp.
  - assert (Hne : name <> "_active") by congruence.
    rewrite remove_rule_run.
    destruct (_rules s !! name) as [found|]; [|now split].
    cbn [snd]. split.
    + unfold pointer_ok. simpl. rewrite lookup_delete_ne by assumption.
      exact Hp.
    + intros k e Hk He. simpl in He.
      destruct (decide (name = k)) as [<-|E].
      * rewrite lookup_delete_eq in He. discriminate.
      * rewrite lookup_delete_ne in He by assumption. now apply (Hn k e).
  - rewrite reset_rules_run. cbn [snd]. split.
    + left. simpl. now rewrite lookup_insert_eq.
    + intros k e Hk He. simpl in He.
      rewrite lookup_insert_ne in He by congruence.
      rewrite lookup_empty in He. discriminate.
  - assert (Hne : name <> "_active") by congruence.
    rewrite set_active_rule_run.
    destruct (_rules s !! name) as [found|]; [|now split].
    cbn [snd]. split.
    + right. exists name. split; [assumption|]. simpl.
      now rewrite lookup_insert_eq.
    + exact (rules_named_pointer s (EName name) (_tokens s) Hn).
  - now split.
  - now split.
  - assert (Hne : r_name r <> "_active") by congruence.
    rewrite load_rule_run. cbn [snd]. split.
    + unfold pointer_ok. simpl. rewrite lookup_insert_ne by assumption.
      exact Hp.
    + now apply rules_named_insert.
Qed.

Lemma registry_ok_run_calls (cs : list call) (s : session) :
  Forall (fun c => call_name c <> Some "_active") cs ->
  registry_ok s -> registry_ok (run_calls cs s).
Proof.
  intros Hcs. revert s. unfold run_calls.
  induction Hcs as [|c cs Hc _ IH]; intros s Hs; simpl; [assumption|].
  apply IH. now apply registry_ok_step.
Qed.

(** X6. After any sequence of [add_rule], [remove_rule], [reset_rules],
    [set_active_rule] and [load_rule] calls, none of them about the name
    ["_active"], [get_active_rule()] raises nothing and returns either
    [None] or a rule that [get_rule] finds under the rule's own name. *)
Theorem active_rule_is_registered (cs : list call) :
  Forall (fun c => call_name c <> Some "_active") cs ->
  let s := run_calls cs initial in
  fst (get_active_rule s) = Ok ENone
  \/ exists r, fst (get_active_rule s) = Ok (ERule r)
               /\ fst (get_rule (r_name r) s) = Ok (ERule r).
Proof.
  intros Hcs s.
  destruct (registry_ok_run_calls cs initial Hcs registry_ok_initial)
    as [Hp Hn]. fold s in Hp, Hn.
  rewrite get_active_rule_run. cbn [fst].
  destruct Hp as [Hp|(n & Hne & Hp)]; rewrite Hp; [now left|].
  cbn [rules_get]. destruct (_rules s !! n) as [e|] eqn:He; [|now left].
  destruct (Hn n e Hne He) as (r & -> & Hr). right. exists r.
  split; [reflexivity|]. rewrite get_rule_run. cbn [fst].
  now rewrite Hr, He.
Qed.

Lemma active_rule_is_registered_witness :
  let s := run_calls [CallAddRule "asset" ["name"];
                      CallAddRule "shot" ["name"; "version"];
                      CallSetActiveRule "shot";
                      CallRemoveRule "asset"] initial in
  fst (get_active_rule s) = Ok ENone
  \/ exists r, fst (get_active_rule s) = Ok (ERule r)
               /\ fst (get_rule (r_name r) s) = Ok (ERule r).
Proof.
  apply (active_rule_is_registered
           [CallAddRule "asset" ["name"];
            CallAddRule "shot" ["name"; "version"];
            CallSetActiveRule "shot";
            CallRemoveRule "asset"]).
  repeat constructor; discriminate.
Defined.

End RegistryExtra.

(** ** tokens.py: more on Token *)

Module TokenExtra.
Import Wording PyFacts Tokens TokensSpec.

(** Written-out lists without repetition. *)
Ltac distinct :=
  simpl;
  repeat (apply NoDup_cons_2;
          [rewrite list_elem_of_In; simpl; intuition discriminate|]);
  apply NoDup_nil_2.

(** *** Looking options up *)

Lemma od_get_In (k : string) (v : pyval) (d : odict pyval) :
  NoDup (od_keys d) -> In (k, v) d -> od_get k d = Some v.
Proof.
  induction d as [|[k0 v0] d IH]; intros Hnd Hin; [destruct Hin|].
  simpl in Hnd. apply NoDup_cons in Hnd as [Hk0 Hnd].
  simpl. destruct Hin as [E|Hin].
  - injection E as -> ->. now rewrite String.eqb_refl.
  - destruct (String.eqb_spec k0 k) as [->|Hne].
    + exfalso. apply Hk0. apply list_elem_of_In.
      change k with (fst (k, v)). now apply in_map.
    + now apply IH.
Qed.

Lemma od_mem_In (k : string) (v : pyval) (d : odict pyval) :
  In (k, v) d -> od_mem k d = true.
Proof.
  intros Hin. unfold od_mem. apply existsb_exists. exists k. split.
  - change k with (fst (k, v)). now apply in_map.
  - apply String.eqb_refl.
Qed.

Lemma first_key_In (value : pyval) (k : string) (d : odict pyval) :
  NoDup (od_values d) -> In (k, value) d -> first_key value d = Some k.
Proof.
  induction d as [|[k0 v0] d IH]; intros Hnd Hin; [destruct Hin|].
  simpl in Hnd. apply NoDup_cons in Hnd as [Hv0 Hnd].
  simpl. destruct Hin as [E|Hin].
  - injection E as -> ->.
    assert (Heq : py_eq value value = true) by now apply py_eq_true.
    now rewrite Heq.
  - destruct (py_eq v0 value) eqn:Heq.
    + apply py_eq_true in Heq. subst v0. exfalso. apply Hv0.
      apply list_elem_of_In. change value with (snd (k, value)).
      now apply in_map.
    + now apply IH.
Qed.

Lemma first_key_found (value : pyval) (k : string) (d : odict pyval) :
  first_key value d = Some k -> In (k, value) d.
Proof.
  induction d as [|[k0 v0] d IH]; simpl; [discriminate|].
  destruct (py_eq v0 value) eqn:Heq.
  - intros [= <-]. apply py_eq_true in Heq. subst. now left.
  - intros H. right. now apply IH.
Qed.

Lemma first_key_some (value : pyval) (k : string) (d : odict pyval) :
  In (k, value) d -> exists k', first_key value d = Some k'.
Proof.
  induction d as [|[k0 v0] d IH]; intros Hin; [destruct Hin|].
  simpl. destruct (py_eq v0 value) eqn:Heq; [eauto|].
  destruct Hin as [E|Hin].
  - injection E as -> ->.
    assert (py_eq value value = true) by now apply py_eq_true. congruence.
  - now apply IH.
Qed.

Lemma od_get_value (k : string) (v : pyval) (d : odict pyval) :
  od_get k d = Some v -> In v (od_values d).
Proof.
  induction d as [|[k0 v0] d IH]; simpl; [discriminate|].
  destruct (k0 =? k); [intros [= ->]; now left | intros H; right; now apply IH].
Qed.

Lemma od_get_od_set (k : string) (v : pyval) (d : odict pyval) :
  od_get k (od_set k v d) = Some v.
Proof.
  induction d as [|[k0 v0] d IH]; simpl.
  - now rewrite String.eqb_refl.
  - destruct (k0 =? k) eqn:E; simpl; [now rewrite String.eqb_refl|].
    now rewrite E.
Qed.

Lemma od_mem_od_set (k : string) (v : pyval) (d : odict pyval) :
  od_mem k (od_set k v d) = true.
Proof.
  unfold od_mem. apply existsb_exists. exists k.
  split; [|apply String.eqb_refl].
  induction d as [|[k0 v0] d IH]; simpl; [now left|].
  destruct (k0 =? k); simpl; [now left | now right].
Qed.

Lemma od_mem_absent (k : string) (d : odict pyval) :
  ~ In k (od_keys d) -> od_mem k d = false.
Proof.
  intros Hk. unfold od_mem. destruct (existsb _ _) eqn:E; [|reflexivity].
  apply existsb_exists in E as (x & Hx & Heq).
  apply String.eqb_eq in Heq. now subst.
Qed.

(** [solve] with a non-empty name on a token that is not required. *)
Lemma solve_lookup (t : Token) (k : string) (v : pyval) :
  fst (required t) = Ok false -> k <> "" -> od_mem k (_options t) = true ->
  od_get k (_options t) = Some v ->
  solve (VStr k) t = (Ok v, t).
Proof.
  intros Hreq Hk Hmem Hget. rewrite solve_unfold. rewrite Hreq.
  assert (Ht : truthy (VStr k) = true).
  { simpl. apply negb_true_iff. now apply String.eqb_neq. }
  rewrite Ht. simpl. now rewrite Hmem, Hget.
Qed.

(** [solve] with a non-empty name that is no key. *)
Lemma solve_unknown (t : Token) (name : string) :
  fst (required t) = Ok false -> name <> "" ->
  od_mem name (_options t) = false ->
  solve (VStr name) t
  = (Raise (Exception ("name '" +:+ name +:+ "' not found in Token '"
       +:+ _name t +:+ "'. Options: " +:+ join ", " (od_keys (_options t)))),
     t).
Proof.
  intros Hreq Hne Hmem. rewrite solve_unfold. rewrite Hreq.
  assert (Ht : truthy (VStr name) = true).
  { simpl. apply negb_true_iff. now apply String.eqb_neq. }
  rewrite Ht. simpl. now rewrite Hmem.
Qed.

(** [solve] without a name on a token with a default. *)
Lemma solve_default (t : Token) (name : pyval) :
  truthy name = false -> _default t <> VNone ->
  solve name t = (Ok (_default t), t).
Proof.
  intros Hfalsy Hd. rewrite solve_unfold.
  rewrite (required_stored t Hd). cbn [fst]. rewrite Hfalsy. simpl.
  now apply default_stored.
Qed.

(** X7. On a token that is not required, which is one with a default,
    whose options have distinct keys and distinct abbreviations, [parse]
    undoes [solve]: solving a non-empty key gives its abbreviation, and
    parsing that abbreviation gives the key back. *)
Theorem parse_undoes_solve (t : Token) (k a : string) :
  NoDup (od_keys (_options t)) -> NoDup (od_values (_options t)) ->
  fst (required t) = Ok false -> k <> "" -> In (k, VStr a) (_options t) ->
  fst (solve (VStr k) t) = Ok (VStr a)
  /\ parse (VStr a) (snd (solve (VStr k) t)) = VStr k.
Proof.
  intros Hkeys Hvals Hreq Hk Hin.
  rewrite (solve_lookup t k (VStr a) Hreq Hk (od_mem_In k _ _ Hin)
             (od_get_In k _ _ Hkeys Hin)).
  split; [reflexivity|]. cbn [snd]. unfold parse.
  rewrite (first_key_In (VStr a) k _ Hvals Hin).
  destruct (_options t); [destruct Hin | reflexivity].
Qed.

Lemma parse_undoes_solve_witness :
  let t := set_default (VStr "L")
             (add_option "right" (VStr "R")
                (add_option "left" (VStr "L") (Token_init "side"))) in
  fst (solve (VStr "right") t) = Ok (VStr "R")
  /\ parse (VStr "R") (snd (solve (VStr "right") t)) = VStr "right".
Proof.
  intros t. apply (parse_undoes_solve t "right" "R").
  - distinct.
  - distinct.
  - reflexivity.
  - discriminate.
  - right. now left.
Defined.

(** X8. On a token that is not required, which is one with a default,
    whose options have distinct, non-empty keys, [solve] undoes [parse]
    on every abbreviation of the options, distinct or not: the key that
    [parse] returns is solved to the abbreviation again. *)
Theorem solve_undoes_parse (t : Token) (k a : string) :
  NoDup (od_keys (_options t)) ->
  Forall (fun key => key <> "") (od_keys (_options t)) ->
  fst (required t) = Ok false -> In (k, VStr a) (_options t) ->
  exists k', parse (VStr a) t = VStr k'
             /\ fst (solve (VStr k') t) = Ok (VStr a).
Proof.
  intros Hkeys Hne Hreq Hin.
  destruct (first_key_some (VStr a) k _ Hin) as [k' Hk'].
  exists k'. split.
  - unfold parse. rewrite Hk'.
    destruct (_options t); [destruct Hin | reflexivity].
  - pose proof (first_key_found _ _ _ Hk') as Hin'.
    assert (Hk'ne : k' <> "").
    { rewrite List.Forall_forall in Hne. apply Hne.
      change k' with (fst (k', VStr a)). now apply in_map. }
    now rewrite (solve_lookup t k' (VStr a) Hreq Hk'ne (od_mem_In k' _ _ Hin')
                   (od_get_In k' _ _ Hkeys Hin')).
Qed.

Lemma solve_undoes_parse_witness :
  let t := set_default (VStr "R")
             (add_option "rear" (VStr "R")
                (add_option "right" (VStr "R") (Token_init "side"))) in
  exists k', parse (VStr "R") t = VStr k'
             /\ fst (solve (VStr k') t) = Ok (VStr "R").
Proof.
  intros t. apply (solve_undoes_parse t "rear" "R").
  - distinct.
  - repeat constructor; discriminate.
  - reflexivity.
  - right. now left.
Defined.

(** X9. [solve] without a name ([None], or the empty string) on a token
    with a default returns that default and leaves the token alone. On a
    token with options and no default it raises [TypeError], as it does
    there for every name: the getter of [default] subscripts
    [values()], which is a view, and nothing is stored. *)
Theorem solve_without_name (t : Token) (name : pyval) :
  name = VNone \/ name = VStr "" ->
  (_default t <> VNone -> solve name t = (Ok (_default t), t))
  /\ (_default t = VNone -> _options t <> [] ->
      solve name t = (Raise TypeError, t)
      /\ forall other : pyval, solve other t = (Raise TypeError, t)).
Proof.
  intros Hname.
  assert (Hfalsy : truthy name = false) by (destruct Hname; now subst).
  split.
  - now apply solve_default.
  - intros Hd Ho.
    assert (Hall : forall other : pyval, solve other t = (Raise TypeError, t)).
    { intros other. rewrite solve_unfold.
      now rewrite (required_without_default t Hd Ho). }
    split; [apply Hall | exact Hall].
Qed.

Lemma solve_without_name_witness :
  let t := add_option "right" (VStr "R")
             (add_option "left" (VStr "L") (Token_init "side")) in
  solve VNone t = (Raise TypeError, t)
  /\ solve VNone (set_default (VStr "R") t)
     = (Ok (VStr "R"), set_default (VStr "R") t).
Proof.
  intros t. split.
  - apply (proj2 (solve_without_name t VNone ltac:(now left)));
      [reflexivity | discriminate].
  - apply (proj1 (solve_without_name (set_default (VStr "R") t) VNone
                    ltac:(now left))).
    discriminate.
Defined.

(** X10. A token without default and options returns every non-empty name
    as it is. After its first option, and without a default, every
    [solve] raises [TypeError]. Once the abbreviation is assigned as the
    default, [solve()] returns it, the key is looked up, and another
    name raises the lookup error. *)
Theorem first_option_needs_default (t : Token) (k name : string)
    (a : pyval) :
  _default t = VNone -> _options t = [] ->
  k <> "" -> name <> "" -> name <> k -> a <> VNone ->
  let t1 := add_option k a t in
  let t2 := set_default a t1 in
  solve (VStr name) t = (Ok (VStr name), t)
  /\ (forall any : pyval, solve any t1 = (Raise TypeError, t1))
  /\ solve VNone t2 = (Ok a, t2)
  /\ solve (VStr k) t2 = (Ok a, t2)
  /\ solve (VStr name) t2
     = (Raise (Exception ("name '" +:+ name +:+ "' not found in Token '"
          +:+ _name t +:+ "'. Options: " +:+ k)), t2).
Proof.
  intros Hd Ho Hk Hname Hne Ha t1 t2.
  assert (Ho1 : _options t1 = [(k, a)]) by (unfold t1; simpl; now rewrite Ho).
  assert (Hd1 : _default t1 = VNone) by exact Hd.
  assert (Ht2 : t2 = with_default a t1).
  { unfold t2, set_default. rewrite Ho1. cbn [length Nat.leb od_values map snd].
    unfold py_in. cbn [existsb].
    assert (E : py_eq a a = true) by now apply py_eq_true.
    now rewrite E. }
  assert (Hd2 : _default t2 = a) by now rewrite Ht2.
  assert (Ho2 : _options t2 = [(k, a)]) by now rewrite Ht2.
  assert (Hn2 : _name t2 = _name t) by now rewrite Ht2.
  assert (Hd2' : _default t2 <> VNone) by now rewrite Hd2.
  assert (Hreq2 : fst (required t2) = Ok false)
    by now rewrite (required_stored t2 Hd2').
  split; [|split; [|split; [|split]]].
  - rewrite solve_unfold. rewrite (required_required_token t Hd Ho).
    cbn [fst].
    assert (Ht : truthy (VStr name) = true).
    { simpl. apply negb_true_iff. now apply String.eqb_neq. }
    now rewrite Ht.
  - intros any. rewrite solve_unfold.
    rewrite (required_without_default t1 Hd1); [reflexivity|].
    now rewrite Ho1.
  - rewrite (solve_default t2 VNone eq_refl Hd2'). now rewrite Hd2.
  - apply (solve_lookup t2 k a Hreq2 Hk).
    + rewrite Ho2. unfold od_mem. simpl. now rewrite String.eqb_refl.
    + rewrite Ho2. simpl. now rewrite String.eqb_refl.
  - rewrite (solve_unknown t2 name Hreq2 Hname).
    + now rewrite Ho2, Hn2.
    + rewrite Ho2. unfold od_mem. simpl.
      apply orb_false_iff. split; [|reflexivity].
      now apply String.eqb_neq.
Qed.

Lemma first_option_needs_default_witness :
  let t := Token_init "side" in
  let t1 := add_option "left" (VStr "L") t in
  let t2 := set_default (VStr "L") t1 in
  solve (VStr "up") t = (Ok (VStr "up"), t)
  /\ solve (VStr "left") t1 = (Raise TypeError, t1)
  /\ solve VNone t2 = (Ok (VStr "L"), t2).
Proof.
  intros t t1 t2.
  pose proof (first_option_needs_default t "left" "up" (VStr "L")) as H.
  cbv zeta in H.
  destruct H as (H1 & H2 & H3 & _); try reflexivity; try discriminate.
  split; [exact H1|]. split; [apply H2 | exact H3].
Defined.

(** X11. The default that the setter stored is not refreshed: after the
    abbreviation it was taken from is overwritten with [add_option],
    [solve()] still returns the old abbreviation, while solving the key
    returns the new one. *)
Theorem stored_default_outlives_option (t : Token) (k : string)
    (a b : pyval) :
  od_get k (_options t) = Some a -> a <> VNone -> k <> "" ->
  let t1 := set_default a t in
  let t2 := add_option k b t1 in
  _default t2 = a
  /\ od_get k (_options t2) = Some b
  /\ solve VNone t2 = (Ok a, t2)
  /\ solve (VStr k) t2 = (Ok b, t2).
Proof.
  intros Hget Ha Hk t1 t2.
  assert (Ht1 : t1 = with_default a t).
  { unfold t1, set_default.
    assert (Hin : py_in a (od_values (_options t)) = true)
      by (apply py_in_In; now apply (od_get_value k)).
    rewrite Hin. destruct (_options t); [discriminate|reflexivity]. }
  assert (Hd2 : _default t2 = a) by (unfold t2; now rewrite Ht1).
  assert (Hd2' : _default t2 <> VNone) by now rewrite Hd2.
  assert (Hget2 : od_get k (_options t2) = Some b)
    by (unfold t2; apply od_get_od_set).
  split; [exact Hd2|]. split; [exact Hget2|]. split.
  - rewrite (solve_default t2 VNone eq_refl Hd2'). now rewrite Hd2.
  - apply (solve_lookup t2 k b); [|exact Hk| |exact Hget2].
    + now rewrite (required_stored t2 Hd2').
    + unfold t2. apply od_mem_od_set.
Qed.

Lemma stored_default_outlives_option_witness :
  let t := add_option "left" (VStr "L") (Token_init "side") in
  let t2 := add_option "left" (VStr "LFT") (set_default (VStr "L") t) in
  _default t2 = VStr "L"
  /\ od_get "left" (_options t2) = Some (VStr "LFT")
  /\ solve VNone t2 = (Ok (VStr "L"), t2)
  /\ solve (VStr "left") t2 = (Ok (VStr "LFT"), t2).
Proof.
  intros t.
  apply (stored_default_outlives_option t "left" (VStr "L") (VStr "LFT"));
    (reflexivity || discriminate).
Defined.

(** *** add_token *)

Lemma od_set_fresh (k : string) (v : pyval) (d : odict pyval) :
  ~ In k (od_keys d) -> od_set k v d = (d ++ [(k, v)])%list.
Proof.
  induction d as [|[k0 v0] d IH]; intros Hk; simpl; [reflexivity|].
  destruct (String.eqb_spec k0 k) as [->|Hne].
  - exfalso. apply Hk. now left.
  - rewrite IH; [reflexivity|]. intros Hin. apply Hk. now right.
Qed.

Lemma add_token_loop_app (xs ys : odict pyval) (token : Token) :
  add_token_loop (xs ++ ys)%list token
  = add_token_loop ys (add_token_loop xs token).
Proof.
  revert token. induction xs as [|[k v] xs IH]; intros token; simpl;
    [reflexivity|].
  destruct (k =? "default"); apply IH.
Qed.

(** Keyword arguments other than [default], with keys that are new to the
    token, are appended to its options in the order of the loop. *)
Lemma add_token_loop_options (kwargs : odict pyval) (token : Token) :
  ~ In "default" (od_keys kwargs) ->
  NoDup (od_keys (_options token) ++ od_keys kwargs)%list ->
  add_token_loop kwargs token
  = {| _name := _name token; _default := _default token;
       _options := (_options token ++ kwargs)%list |}.
Proof.
  revert token. induction kwargs as [|[k v] kwargs IH]; intros token Hd Hnd.
  - simpl. rewrite app_nil_r. now destruct token.
  - simpl in *.
    destruct (String.eqb_spec k "default") as [->|Hk];
      [exfalso; apply Hd; now left|].
    rewrite IH.
    + simpl. f_equal. rewrite od_set_fresh.
      * now rewrite <- app_assoc.
      * apply NoDup_app in Hnd as (_ & Hdisj & _).
        intros Hin. apply (Hdisj k); [now apply list_elem_of_In|].
        apply list_elem_of_In. now left.
    + intros Hin. apply Hd. now right.
    + simpl. rewrite od_set_fresh.
      * unfold od_keys. rewrite map_app. simpl. fold (@od_keys pyval).
        now rewrite <- app_assoc.
      * apply NoDup_app in Hnd as (_ & Hdisj & _).
        intros Hin. apply (Hdisj k); [now apply list_elem_of_In|].
        apply list_elem_of_In. now left.
Qed.

(** X12. [add_token] of tokens.py, called with distinct keywords none of
    which is [name], keeps a [default] keyword only when its value is the
    abbreviation of an option that the loop has met before it; otherwise
    the token is left without a default. The other keywords become the
    options, in the order of the loop, and the token is stored under its
    name. A keyword [name] is refused with [TypeError] and nothing is
    stored. *)
Theorem add_token_default_after_its_option (name : string)
    (before after : odict pyval) (d : pyval) (_tokens : gmap string token) :
  NoDup (od_keys (before ++ ("default", d) :: after)%list) ->
  ~ In "name" (od_keys (before ++ ("default", d) :: after)%list) ->
  let token :=
    {| _name := name;
       _default := if py_in d (od_values before) then d else VNone;
       _options := (before ++ after)%list |} in
  let made :=
    add_token name (before ++ ("default", d) :: after)%list _tokens in
  fst made = Ok token
  /\ get_token name (snd made) = Some (AToken token)
  /\ (forall n, n <> name -> get_token n (snd made) = get_token n _tokens)
  /\ (forall kwargs, In "name" (od_keys kwargs) ->
        add_token name kwargs _tokens = (Raise TypeError, _tokens)).
Proof.
  intros Hnd Hname token made.
  pose proof (od_mem_absent "name" _ Hname) as Hmem.
  unfold od_keys in Hnd. rewrite map_app in Hnd. simpl in Hnd.
  fold (@od_keys pyval) in Hnd.
  pose proof Hnd as Hsplit. apply NoDup_app in Hsplit as (Hb & Hdisj & Hrest).
  apply NoDup_cons in Hrest as [Hd_after Ha].
  assert (Hd_before : ~ In "default" (od_keys before)).
  { intros Hin. apply (Hdisj "default"); [now apply list_elem_of_In|].
    now left. }
  assert (Hd_after' : ~ In "default" (od_keys after))
    by (intros Hin; apply Hd_after; now apply list_elem_of_In).
  assert (Hloop : add_token_loop (before ++ ("default", d) :: after)%list
                    (Token_init name) = token).
  { rewrite add_token_loop_app.
    rewrite (add_token_loop_options before (Token_init name) Hd_before)
      by exact Hb.
    cbn [add_token_loop Token_init _name _default _options app].
    change ("default" =? "default") with true. cbv iota.
    set (t0 := {| _name := name; _default := VNone; _options := before |}).
    assert (Hset : set_default d t0
                   = {| _name := name;
                        _default := if py_in d (od_values before)
                                    then d else VNone;
                        _options := before |}).
    { unfold set_default, t0. simpl.
      destruct before as [|x before']; [reflexivity|]. simpl.
      now destruct (py_eq d (snd x) || py_in d (od_values before')). }
    rewrite Hset. rewrite add_token_loop_options; [reflexivity|assumption|].
    simpl. apply NoDup_app. split; [exact Hb|]. split; [|exact Ha].
    intros x Hx Hx'. apply (Hdisj x Hx). now right. }
  unfold made, add_token, get_token. rewrite Hmem, Hloop. cbn [fst snd].
  split; [reflexivity|]. split; [apply lookup_insert_eq|].
  split; [intros n Hn; now apply lookup_insert_ne|].
  intros kwargs Hin.
  assert (Hfound : od_mem "name" kwargs = true).
  { unfold od_mem. apply existsb_exists. exists "name". now split. }
  now rewrite Hfound.
Qed.

Lemma add_token_default_after_its_option_witness :
  let first :=
    add_token "side" [("default", VStr "L"); ("left", VStr "L")] ∅ in
  let last :=
    add_token "side" [("left", VStr "L"); ("default", VStr "L")] ∅ in
  fst first
  = Ok {| _name := "side"; _default := VNone;
          _options := [("left", VStr "L")] |}
  /\ fst last
     = Ok {| _name := "side"; _default := VStr "L";
             _options := [("left", VStr "L")] |}.
Proof.
  intros first last. split.
  - apply (add_token_default_after_its_option "side" []
             [("left", VStr "L")] (VStr "L") ∅); [distinct|].
    simpl. intuition discriminate.
  - apply (add_token_default_after_its_option "side"
             [("left", VStr "L")] [] (VStr "L") ∅); [distinct|].
    simpl. intuition discriminate.
Defined.

End TokenExtra.

(** ** More on TokenNumber *)

Module NumberExtra.
Import Wording PyFacts Tokens NumberSpec.

(** *** The two versions of parse *)

Lemma scan_same (l : list ascii) (k : Z) :
  (0 <= k)%Z -> Naming.scan l k = scan l k.
Proof.
  revert k. induction l as [|c l IH]; intros k Hk; simpl; [reflexivity|].
  destruct (char_isdigit c); simpl.
  - destruct (Z.eqb_spec k 0); [reflexivity|].
    destruct (Z.ltb_spec 0 k); [reflexivity|lia].
  - apply IH. lia.
Qed.

(** X13. [TokenNumber.parse] of naming.py and of tokens.py, whose loops
    are written differently, return the same result or raise the same
    exception on every string. *)
Theorem parse_versions_agree (value : string) :
  Naming.TokenNumber_parse value = n_parse value.
Proof.
  unfold Naming.TokenNumber_parse, n_parse.
  now rewrite !scan_same by lia.
Qed.

(** *** Strings that parse cannot read *)

Lemma scan_all_non_digits (l : list ascii) :
  no_digits l -> scan l 0 = Z.of_nat (length l).
Proof.
  intros Hl. rewrite <- (app_nil_r l) at 1.
  rewrite scan_no_digits by (assumption || lia). reflexivity.
Qed.

Lemma isdigit_no_digits (value : string) :
  no_digits (chars value) -> isdigit value = false.
Proof.
  intros H. unfold isdigit. destruct (chars value) as [|c l]; [reflexivity|].
  inversion H as [|? ? Hc _]; subst. simpl. now rewrite Hc.
Qed.

(** X14. [parse] of a string without any character that [isdigit]
    accepts, the empty string included, raises [ValueError]: both runs
    cover the whole string and [int] is given the empty slice between
    them. *)
Theorem parse_without_digits (value : string) :
  no_digits (chars value) -> n_parse value = Raise ValueError.
Proof.
  intros H. unfold n_parse. rewrite (isdigit_no_digits value H).
  rewrite (scan_all_non_digits _ H).
  rewrite (scan_all_non_digits _ (no_digits_rev _ H)).
  rewrite length_rev, !length_not_minus_one, !length_not_negative. simpl.
  assert (Hslice : slice (Some (Z.of_nat (length (chars value))))
                     (Some (- Z.of_nat (length (chars value)))%Z) value = "").
  { unfold slice. set (len := Z.of_nat (length (chars value))).
    replace (Z.to_nat (slice_index len (- len) - slice_index len len))
      with 0%nat; [reflexivity|].
    unfold slice_index.
    destruct (Z.ltb_spec (- len) 0); destruct (Z.ltb_spec len 0); lia. }
  rewrite Hslice. reflexivity.
Qed.

Lemma parse_without_digits_witness : n_parse "final" = Raise ValueError.
Proof.
  apply (parse_without_digits "final"). repeat constructor.
Defined.

(** X15. [parse] of a string that begins and ends with a character that
    [isdigit] accepts, and holds in between a character that it does not
    accept, raises nothing and returns [None]: both indices are [-1] and
    no branch returns. *)
Theorem parse_digits_at_both_ends (c1 c2 : ascii) (mid : list ascii) :
  char_isdigit c1 = true -> char_isdigit c2 = true -> ~ all_digits mid ->
  n_parse (of_chars (c1 :: mid ++ [c2])) = Ok VNone.
Proof.
  intros H1 H2 Hmid. unfold n_parse. rewrite chars_of_chars.
  assert (Hnot : isdigit (of_chars (c1 :: mid ++ [c2])) = false).
  { apply not_true_is_false. intros H. apply isdigit_all in H.
    rewrite chars_of_chars in H. inversion H as [|? ? _ H']; subst.
    apply Forall_app in H' as [H' _]. contradiction. }
  rewrite Hnot.
  rewrite (scan_digit c1 (mid ++ [c2]) 0 H1) by lia.
  assert (Hrev : rev (c1 :: mid ++ [c2]) = c2 :: (rev mid ++ [c1])%list).
  { simpl. now rewrite rev_app_distr. }
  rewrite Hrev. rewrite (scan_digit c2 _ 0 H2) by lia. reflexivity.
Qed.

Lemma parse_digits_at_both_ends_witness :
  n_parse "2020_01" = Ok VNone.
Proof.
  apply (parse_digits_at_both_ends "2" "1" (chars "020_0"));
    [reflexivity | reflexivity |].
  intros H.
  do 3 (inversion H as [|? ? _ H']; subst; clear H; rename H' into H).
  inversion H as [|? ? Hc _]. discriminate.
Defined.

(** *** Negative numbers *)

Lemma str_int_negative (n : Z) :
  (0 < n)%Z -> str_int (- n) = "-" +:+ decimal n.
Proof.
  intros Hn. destruct n as [|p|p]; try lia.
  unfold str_int, decimal. simpl. unfold NilZero.string_of_uint.
  pose proof (DecimalPos.Unsigned.to_uint_nonnil p) as Hnil.
  destruct (Pos.to_uint p); [congruence | reflexivity ..].
Qed.

Lemma zfill_signed (w : Z) (digits : string) :
  zfill w ("-" +:+ digits) = "-" +:+ zero_padded (w - 1) digits.
Proof.
  unfold zfill, zero_padded.
  change ("-" +:+ digits) with (String "-"%char digits).
  cbn [String.length].
  destruct (Z.leb_spec w (Z.of_nat (S (String.length digits)))) as [Hle|Hlt].
  - replace (Z.to_nat (w - 1 - Z.of_nat (String.length digits)))
      with 0%nat by lia. reflexivity.
  - replace (Z.to_nat (w - 1 - Z.of_nat (String.length digits)))
      with (Z.to_nat (w - Z.of_nat (S (String.length digits)))) by lia.
    reflexivity.
Qed.

(** X16. [solve] puts the sign of a negative number before the padding
    zeros and counts it in the width. When neither the prefix nor the
    suffix holds a character that [isdigit] accepts, [parse] takes the
    sign for part of the prefix, so that what comes back is the number
    without its sign. *)
Theorem parse_drops_the_sign (name : string) (dflt : Z) (p s : string)
    (w n : Z) :
  (0 < n)%Z -> no_digits (chars p) -> no_digits (chars s) ->
  let t := {| n_name := name; n_default := dflt; prefix := VStr p;
              suffix := VStr s; padding := w |} in
  n_solve (VInt (- n)) t
  = p +:+ "-" +:+ zero_padded (w - 1) (decimal n) +:+ s
  /\ n_parse (n_solve (VInt (- n)) t) = Ok (VInt n).
Proof.
  intros Hn Hp Hs t.
  assert (Hsolve : n_solve (VInt (- n)) t
                   = p +:+ "-" +:+ zero_padded (w - 1) (decimal n) +:+ s).
  { unfold n_solve, t. simpl. rewrite (str_int_negative n Hn).
    rewrite zfill_signed. reflexivity. }
  split; [exact Hsolve|]. rewrite Hsolve.
  assert (Hshape : p +:+ "-" +:+ zero_padded (w - 1) (decimal n) +:+ s
                   = of_chars ((chars p ++ ["-"%char])
                               ++ chars (zero_padded (w - 1) (decimal n))
                               ++ chars s)).
  { rewrite <- (of_chars_chars (p +:+ _)). f_equal.
    rewrite !chars_app. now rewrite <- app_assoc. }
  rewrite Hshape. rewrite n_parse_framed.
  - rewrite of_chars_chars. rewrite int_zero_padded by lia. reflexivity.
  - apply Forall_app. split; [exact Hp|]. now repeat constructor.
  - exact Hs.
  - apply zero_padded_all_digits, decimal_all_digits.
  - apply zero_padded_nonempty, decimal_nonempty.
Qed.

Lemma parse_drops_the_sign_witness :
  let t := {| n_name := "offset"; n_default := 1; prefix := VStr "v";
              suffix := VStr ""; padding := 3 |} in
  n_solve (VInt (- 5)) t = "v" +:+ "-" +:+ zero_padded 2 (decimal 5) +:+ ""
  /\ n_parse (n_solve (VInt (- 5)) t) = Ok (VInt 5).
Proof.
  apply (parse_drops_the_sign "offset" 1 "v" "" 3 5).
  - lia.
  - repeat constructor.
  - constructor.
Defined.

(** *** What add_token_number of tokens.py makes *)

(** X17. The token that [add_token_number] of tokens.py makes from a
    [str] prefix and suffix solves a natural number to its bare digits,
    padded to the larger of 1 and the padding given: neither prefix nor
    suffix shows. [parse] reads the number back. *)
Theorem add_token_number_bare_digits (name pre suf : string) (pad n : Z)
    (_tokens : gmap string token) :
  (0 <= n)%Z ->
  exists made,
    fst (add_token_number name (VStr pre) (VStr suf) pad _tokens) = Ok made
    /\ padding made = Z.max 1 pad
    /\ n_solve (VInt n) made = zero_padded (Z.max 1 pad) (decimal n)
    /\ n_parse (n_solve (VInt n) made) = Ok (VInt n).
Proof.
  intros Hn. exists (set_padding pad (TokenNumber_init name)).
  assert (Hpad : padding (set_padding pad (TokenNumber_init name))
                 = Z.max 1 pad).
  { unfold set_padding. simpl. destruct (Z.leb_spec pad 0); lia. }
  split; [reflexivity|]. split; [exact Hpad|].
  assert (Hsolve : n_solve (VInt n) (set_padding pad (TokenNumber_init name))
                   = zero_padded (Z.max 1 pad) (decimal n)).
  { unfold n_solve. rewrite Hpad. simpl. rewrite (str_int_decimal n Hn).
    rewrite (zfill_digits _ _ (decimal_all_digits n)).
    now rewrite append_empty_r. }
  split; [exact Hsolve|]. rewrite Hsolve.
  pose proof (n_parse_framed [] (chars (zero_padded (Z.max 1 pad) (decimal n)))
                [] ltac:(constructor) ltac:(constructor)
                (zero_padded_all_digits _ _ (decimal_all_digits n))
                (zero_padded_nonempty _ _ (decimal_nonempty n))) as Hparse.
  cbn [app] in Hparse. rewrite app_nil_r, of_chars_chars in Hparse.
  rewrite Hparse. now rewrite int_zero_padded.
Qed.

Lemma add_token_number_bare_digits_witness :
  exists made,
    fst (add_token_number "version" (VStr "v") (VStr "") 0 ∅) = Ok made
    /\ padding made = Z.max 1 0
    /\ n_solve (VInt 25) made = zero_padded (Z.max 1 0) (decimal 25)
    /\ n_parse (n_solve (VInt 25) made) = Ok (VInt 25).
Proof.
  apply (add_token_number_bare_digits "version" "v" "" 0 25 ∅). lia.
Defined.

(** *** solve tells numbers apart *)

Lemma append_cancel (p x y s : string) :
  p +:+ x +:+ s = p +:+ y +:+ s -> x = y.
Proof.
  intros H. apply (f_equal chars) in H. rewrite !chars_app in H.
  apply app_inv_head in H. apply app_inv_tail in H.
  rewrite <- (of_chars_chars x), <- (of_chars_chars y). now rewrite H.
Qed.

(** X18. For any [str] prefix and suffix, with or without digits in them,
    and any padding, [solve] gives two different natural numbers two
    different strings. *)
Theorem solve_tells_numbers_apart (name : string) (dflt : Z) (p s : string)
    (w n m : Z) :
  (0 <= n)%Z -> (0 <= m)%Z ->
  let t := {| n_name := name; n_default := dflt; prefix := VStr p;
              suffix := VStr s; padding := w |} in
  n_solve (VInt n) t = n_solve (VInt m) t -> n = m.
Proof.
  intros Hn Hm t Heq. unfold t in Heq.
  rewrite (n_solve_decimal name dflt p s w n Hn) in Heq.
  rewrite (n_solve_decimal name dflt p s w m Hm) in Heq.
  apply append_cancel in Heq.
  pose proof (int_zero_padded w n Hn) as En.
  pose proof (int_zero_padded w m Hm) as Em.
  rewrite Heq in En. congruence.
Qed.

Lemma solve_tells_numbers_apart_witness :
  let t := {| n_name := "version"; n_default := 1; prefix := VStr "v2";
              suffix := VStr "0"; padding := 3 |} in
  n_solve (VInt 7) t = "v20070" /\ 7%Z = 7%Z.
Proof.
  intros t. split; [reflexivity|].
  apply (solve_tells_numbers_apart "version" 1 "v2" "0" 3 7 7);
    [lia | lia | reflexivity].
Defined.

End NumberExtra.

(** ** naming.py: Rule.solve and the pattern *)

Module RuleExtra.
Import Wording PyFacts Naming.

(** *** format on the pattern of a rule *)

(** Inside a replacement field: the characters up to the closing brace
    are collected, then the field is looked up. *)
Lemma format_go_field (name rest acc : list ascii)
    (values : gmap string pyval) :
  Forall plain_char name ->
  format_go (name ++ "}"%char :: rest) (Some acc) values
  = rbind (format_field (of_chars (rev acc ++ name)) values) (fun piece =>
    rbind (format_go rest None values) (fun out =>
    Ok (chars piece ++ out)%list)).
Proof.
  intros Hname. revert acc.
  induction Hname as [|c name [Hsyntax Hclose] _ IH]; intros acc.
  - cbn [app format_go]. change ("}" =? "}")%char with true. cbv iota.
    now rewrite app_nil_r.
  - cbn [app format_go].
    assert (Hc : (c =? "}")%char = false) by now apply Ascii.eqb_neq.
    rewrite Hc, Hsyntax. rewrite IH. cbn [rev]. now rewrite <- app_assoc.
Qed.

Lemma plain_field_chars (f : string) :
  plain_field f ->
  exists c cs, chars f = c :: cs /\ (c =? "{")%char = false
               /\ Forall plain_char (chars f).
Proof.
  intros (Hne & _ & Hall). destruct f as [|c f]; [congruence|].
  exists c, (chars f). split; [reflexivity|]. split; [|exact Hall].
  unfold chars in Hall. simpl in Hall.
  inversion Hall as [|? ? [Hsyntax _] _]; subst.
  apply Ascii.eqb_neq. intros ->. discriminate.
Qed.

(** A replacement field with a plain name at the start of the text. *)
Lemma format_go_open (f : string) (rest : list ascii)
    (values : gmap string pyval) :
  plain_field f ->
  format_go ("{"%char :: chars f ++ "}"%char :: rest) None values
  = rbind (format_field f values) (fun piece =>
    rbind (format_go rest None values) (fun out =>
    Ok (chars piece ++ out)%list)).
Proof.
  intros Hf. destruct (plain_field_chars f Hf) as (c & cs & Hcs & Hc & Hall).
  cbn [format_go]. change ("{" =? "{")%char with true. cbv iota.
  rewrite Hcs in *. cbn [app]. rewrite Hc.
  change (c :: (cs ++ "}"%char :: rest))%list
    with ((c :: cs) ++ "}"%char :: rest)%list.
  rewrite (format_go_field (c :: cs) rest [] values Hall).
  cbn [rev]. change ([] ++ c :: cs)%list with (c :: cs).
  rewrite <- Hcs. now rewrite of_chars_chars.
Qed.

(** The separator between two fields is literal text. *)
Lemma format_go_underscore (rest : list ascii) (values : gmap string pyval) :
  format_go ("_"%char :: rest) None values
  = rbind (format_go rest None values) (fun out => Ok ("_"%char :: out)).
Proof. reflexivity. Qed.

Lemma format_field_plain (f : string) (values : gmap string pyval) :
  plain_field f ->
  format_field f values
  = match values !! f with
    | Some v => Ok (str v)
    | None => Raise (KeyError (VStr f))
    end.
Proof.
  intros (Hne & Hdig & _). unfold format_field.
  apply String.eqb_neq in Hne. now rewrite Hne, Hdig.
Qed.

Lemma join_cons (sep x y : string) (ys : list string) :
  join sep (x :: y :: ys) = x +:+ sep +:+ join sep (y :: ys).
Proof. reflexivity. Qed.

Lemma chars_cons (c : ascii) (s : string) : chars (String c s) = c :: chars s.
Proof. reflexivity. Qed.

(** The text of the pattern after its first brace. *)
Lemma pattern_chars (f g : string) (gs : list string) :
  chars (join "}_{" (f :: g :: gs) +:+ "}")
  = (chars f ++ "}"%char :: "_"%char :: "{"%char
     :: chars (join "}_{" (g :: gs) +:+ "}"))%list.
Proof.
  rewrite join_cons. rewrite !chars_app. rewrite <- !app_assoc.
  f_equal.
Qed.

(** When every field is in [values], [format] on the pattern writes the
    values in the order of the fields, with underscores between them. *)
Lemma format_go_fields (f : string) (fs : list string)
    (values : gmap string pyval) :
  Forall plain_field (f :: fs) ->
  Forall (fun g => is_Some (values !! g)) (f :: fs) ->
  format_go ("{"%char :: chars (join "}_{" (f :: fs) +:+ "}")) None values
  = Ok (chars (join "_" (map (fun g => str (dict_get g values)) (f :: fs)))).
Proof.
  revert f. induction fs as [|g gs IH]; intros f Hplain Hvals.
  - inversion Hplain as [|? ? Hf _]; subst.
    inversion Hvals as [|? ? [v Hv] _]; subst.
    change (join "}_{" [f]) with f. rewrite chars_app.
    change (chars "}") with ["}"%char].
    rewrite (format_go_open f [] values Hf).
    rewrite (format_field_plain f values Hf), Hv. cbn [rbind format_go map].
    unfold dict_get. rewrite Hv. cbn [from_option id].
    change (join "_" [str v]) with (str v). now rewrite app_nil_r.
  - inversion Hplain as [|? ? Hf Hplain']; subst.
    inversion Hvals as [|? ? [v Hv] Hvals']; subst.
    rewrite pattern_chars.
    rewrite (format_go_open f _ values Hf).
    rewrite (format_field_plain f values Hf), Hv. cbn [rbind].
    rewrite format_go_underscore.
    rewrite (IH g Hplain' Hvals'). cbn [rbind].
    assert (Hd : dict_get f values = v) by (unfold dict_get; now rewrite Hv).
    cbn [map]. rewrite Hd, join_cons. rewrite !chars_app. reflexivity.
Qed.

(** [Rule.solve] called with a keyword [self]. *)
Lemma Rule_solve_self (r : Rule) (values : gmap string pyval) :
  is_Some (values !! "self") -> Rule_solve values r = Raise TypeError.
Proof. intros [v Hv]. unfold Rule_solve. now rewrite Hv. Qed.

(** X19. [Rule.solve] on a rule with at least one field, all of them plain
    names, called with keywords none of which is [self] and with a value
    for every field, returns the values as [str] prints them, in the
    order of the fields and joined by underscores. Called with a keyword
    [self] it raises [TypeError], whatever the rule. *)
Theorem Rule_solve_joins_values (r : Rule) (values : gmap string pyval) :
  fields r <> [] ->
  Forall plain_field (fields r) ->
  Forall (fun g => is_Some (values !! g)) (fields r) ->
  (values !! "self" = None ->
   Rule_solve values r
   = Ok (join "_" (map (fun g => str (dict_get g values)) (fields r))))
  /\ (is_Some (values !! "self") -> Rule_solve values r = Raise TypeError).
Proof.
  intros Hne Hplain Hvals. split; [|apply Rule_solve_self].
  intros Hself. unfold Rule_solve, _pattern, format. rewrite Hself.
  destruct (fields r) as [|f fs]; [congruence|].
  change (chars ("{" +:+ join "}_{" (f :: fs) +:+ "}"))
    with ("{"%char :: chars (join "}_{" (f :: fs) +:+ "}")).
  rewrite (format_go_fields f fs values Hplain Hvals). cbn [rbind].
  now rewrite of_chars_chars.
Qed.

Lemma plain_field_name : plain_field "name".
Proof.
  split; [discriminate|]. split; [reflexivity|].
  repeat constructor; discriminate.
Qed.

Lemma plain_field_version : plain_field "version".
Proof.
  split; [discriminate|]. split; [reflexivity|].
  repeat constructor; discriminate.
Qed.

Lemma Rule_solve_joins_values_witness :
  Rule_solve (<["name" := VStr "hero"]> (<["version" := VInt 7]> ∅))
    (Rule_init "asset" ["name"; "version"])
  = Ok (join "_" ["hero"; "7"]).
Proof.
  refine (eq_trans
            (proj1 (Rule_solve_joins_values
                      (Rule_init "asset" ["name"; "version"])
                      (<["name" := VStr "hero"]> (<["version" := VInt 7]> ∅))
                      _ _ _) _) _).
  - discriminate.
  - constructor; [apply plain_field_name|].
    constructor; [apply plain_field_version | constructor].
  - repeat constructor; eexists; reflexivity.
  - reflexivity.
  - reflexivity.
Defined.

(** Up to the first field that is not in [values]. *)
Lemma format_go_missing (f : string) (before after : list string)
    (g : string) (values : gmap string pyval) :
  Forall plain_field ((f :: before) ++ g :: after) ->
  Forall (fun h => is_Some (values !! h)) (f :: before) ->
  values !! g = None ->
  format_go
    ("{"%char :: chars (join "}_{" ((f :: before) ++ g :: after) +:+ "}"))
    None values
  = Raise (KeyError (VStr g)).
Proof.
  revert f. induction before as [|b before IH]; intros f Hplain Hvals Hg.
  - cbn [app] in *. inversion Hplain as [|? ? Hf Hplain']; subst.
    inversion Hvals as [|? ? [v Hv] _]; subst.
    rewrite pattern_chars. rewrite (format_go_open f _ values Hf).
    rewrite (format_field_plain f values Hf), Hv. cbn [rbind].
    rewrite format_go_underscore.
    inversion Hplain' as [|? ? Hgp _]; subst.
    destruct after as [|a after].
    + change (join "}_{" [g]) with g. rewrite chars_app.
      change (chars "}") with ["}"%char].
      rewrite (format_go_open g [] values Hgp).
      now rewrite (format_field_plain g values Hgp), Hg.
    + rewrite pattern_chars. rewrite (format_go_open g _ values Hgp).
      now rewrite (format_field_plain g values Hgp), Hg.
  - cbn [app] in *. inversion Hplain as [|? ? Hf Hplain']; subst.
    inversion Hvals as [|? ? [v Hv] Hvals']; subst.
    rewrite pattern_chars. rewrite (format_go_open f _ values Hf).
    rewrite (format_field_plain f values Hf), Hv. cbn [rbind].
    rewrite format_go_underscore.
    now rewrite (IH b Hplain' Hvals' Hg).
Qed.

(** X20. [Rule.solve] on a rule whose fields are plain names, called
    with keywords none of which is [self], raises [KeyError] for the
    first field, in the order of the rule, that has no value; the values
    given for the fields after it do not matter. *)
Theorem Rule_solve_missing_value (r : Rule) (before after : list string)
    (g : string) (values : gmap string pyval) :
  fields r = (before ++ g :: after)%list ->
  Forall plain_field (fields r) ->
  values !! "self" = None ->
  Forall (fun h => is_Some (values !! h)) before ->
  values !! g = None ->
  Rule_solve values r = Raise (KeyError (VStr g)).
Proof.
  intros Hfields Hplain Hself Hvals Hg. unfold Rule_solve, _pattern, format.
  rewrite Hself. rewrite Hfields in *.
  destruct before as [|f before].
  - cbn [app] in *. inversion Hplain as [|? ? Hgp _]; subst.
    change (chars ("{" +:+ join "}_{" (g :: after) +:+ "}"))
      with ("{"%char :: chars (join "}_{" (g :: after) +:+ "}")).
    destruct after as [|a after].
    + change (join "}_{" [g]) with g. rewrite chars_app.
      change (chars "}") with ["}"%char].
      rewrite (format_go_open g [] values Hgp).
      now rewrite (format_field_plain g values Hgp), Hg.
    + rewrite pattern_chars. rewrite (format_go_open g _ values Hgp).
      now rewrite (format_field_plain g values Hgp), Hg.
  - change (chars ("{" +:+ join "}_{" ((f :: before) ++ g :: after) +:+ "}"))
      with ("{"%char
            :: chars (join "}_{" ((f :: before) ++ g :: after) +:+ "}")).
    now rewrite (format_go_missing f before after g values Hplain Hvals Hg).
Qed.

Lemma Rule_solve_missing_value_witness :
  Rule_solve (<["name" := VStr "hero"]> ∅)
    (Rule_init "asset" ["name"; "version"])
  = Raise (KeyError (VStr "version")).
Proof.
  apply (Rule_solve_missing_value (Rule_init "asset" ["name"; "version"])
           ["name"] [] "version").
  - reflexivity.
  - constructor; [apply plain_field_name|].
    constructor; [apply plain_field_version | constructor].
  - reflexivity.
  - repeat constructor. eexists; reflexivity.
  - reflexivity.
Defined.

End RuleExtra.

(** ** naming.py: more on solve and parse *)

Module SessionExtra.
Import Wording PyFacts Naming SessionSpec.

(** X21. With a rule without fields active, [solve] raises [IndexError]
    whatever its arguments (the pattern is the single placeholder [{}],
    which asks for a positional argument), and [parse] returns the empty
    mapping for every name. The session is not changed. *)
Theorem rule_without_fields (s : session) (rule : Rule) (args : list pyval)
    (kwargs : gmap string pyval) (name : string) :
  fst (get_active_rule s) = Ok (ERule rule) -> fields rule = [] ->
  solve args kwargs s = (Raise IndexError, s)
  /\ parse name s = (Ok ∅, s).
Proof.
  intros Hactive Hfields. apply get_active_rule_keeps in Hactive.
  split.
  - unfold solve. unfold bind at 1. rewrite Hactive.
    unfold bind at 1. cbn [as_rule]. unfold ret at 1.
    rewrite Hfields. unfold bind at 1. cbn [solve_loop]. unfold ret at 1.
    unfold lift, Rule_solve, _pattern. rewrite Hfields. reflexivity.
  - unfold parse. unfold bind at 1. rewrite Hactive.
    unfold bind at 1. cbn [as_rule]. unfold ret at 1.
    unfold Rule_parse. rewrite Hfields. reflexivity.
Qed.

Lemma rule_without_fields_witness :
  let s := snd (add_rule "empty" [] initial) in
  solve [VStr "hero"] ∅ s = (Raise IndexError, s)
  /\ parse "hero_v001" s = (Ok ∅, s).
Proof.
  intros s. apply (rule_without_fields s (Rule_init "empty" [])); reflexivity.
Defined.

(** X22. Without an active rule, that is when [get_active_rule()] returns
    [None] or a bare name, [solve] and [parse] raise [AttributeError];
    when the key ["_active"] itself is gone they raise [KeyError]. In
    both cases the session is not changed. *)
Theorem solve_parse_need_active_rule (s : session) (args : list pyval)
    (kwargs : gmap string pyval) (name : string) :
  (fst (get_active_rule s) = Ok ENone
   \/ (exists n, fst (get_active_rule s) = Ok (EName n)) ->
   solve args kwargs s = (Raise AttributeError, s)
   /\ parse name s = (Raise AttributeError, s))
  /\ (_rules s !! "_active" = None ->
      solve args kwargs s = (Raise (KeyError (VStr "_active")), s)
      /\ parse name s = (Raise (KeyError (VStr "_active")), s)).
Proof.
  split.
  - intros [H|[n H]]; apply get_active_rule_keeps in H;
      unfold solve, parse; unfold bind at 1; rewrite H;
      (split; [reflexivity|]); unfold bind at 1; now rewrite H.
  - intros H.
    assert (Hraise : get_active_rule s = (Raise (KeyError (VStr "_active")), s)).
    { rewrite RegistrySpec.get_active_rule_run. now rewrite H. }
    unfold solve, parse. unfold bind at 1. rewrite Hraise.
    split; [reflexivity|]. unfold bind at 1. now rewrite Hraise.
Qed.

Lemma solve_parse_need_active_rule_witness :
  solve [] ∅ initial = (Raise AttributeError, initial)
  /\ parse "hero" initial = (Raise AttributeError, initial).
Proof.
  apply (proj1 (solve_parse_need_active_rule initial [] ∅ "hero")).
  now left.
Defined.

(** *** Rules over tokens without options *)

Lemma raw_token_reads (t : Token) :
  raw_token t -> is_number t = false /\ required t = (Ok true, t).
Proof.
  intros (Hc & Hd & Ho). unfold is_number, required, default.
  rewrite Hc, Hd, Ho. split; reflexivity.
Qed.





(** *** Splitting what was joined *)

Lemma split_no_underscore (v : string) :
  no_underscore v -> split "_" v = [v].
Proof.
  unfold no_underscore. induction v as [|c v IH]; intros Hv.
  - reflexivity.
  - rewrite RuleExtra.chars_cons in Hv.
    inversion Hv as [|? ? Hc Hv']; subst.
    apply Ascii.eqb_neq in Hc. cbn [split]. rewrite Hc.
    now rewrite (IH Hv').
Qed.

Lemma split_first_part (v rest : string) :
  no_underscore v -> split "_" (v +:+ "_" +:+ rest) = v :: split "_" rest.
Proof.
  unfold no_underscore. induction v as [|c v IH]; intros Hv.
  - reflexivity.
  - rewrite RuleExtra.chars_cons in Hv.
    inversion Hv as [|? ? Hc Hv']; subst.
    apply Ascii.eqb_neq in Hc.
    change (String c v +:+ "_" +:+ rest)
      with (String c (v +:+ "_" +:+ rest)).
    cbn [split]. rewrite Hc. now rewrite (IH Hv').
Qed.

Lemma split_join (v : string) (vs : list string) :
  Forall no_underscore (v :: vs) -> split "_" (join "_" (v :: vs)) = v :: vs.
Proof.
  revert v. induction vs as [|w vs IH]; intros v Hall.
  - inversion Hall; subst. now apply split_no_underscore.
  - inversion Hall as [|? ? Hv Hall']; subst.
    rewrite RuleExtra.join_cons. rewrite (split_first_part _ _ Hv).
    now rewrite (IH w Hall').
Qed.

(** *** The loop of solve over tokens without options *)

Lemma given_lookup (kwargs : gmap string pyval) (f : string) :
  given kwargs f = true -> kwargs !! f = Some (dict_get f kwargs).
Proof.
  unfold given, dict_get. now destruct (kwargs !! f).
Qed.

(** Every field passed by keyword: the loop copies the keyword
    arguments of the fields. *)
Lemma solve_loop_raw_named (s : session) (args : list pyval)
    (kwargs : gmap string pyval) :
  forall (fs : list string) (i : nat) (values : gmap string pyval),
    raw_fields s fs -> Forall (fun f => given kwargs f = true) fs ->
    exists vals, solve_loop args kwargs i fs values s = (Ok vals, s)
      /\ (forall f, f ∈ fs -> vals !! f = kwargs !! f)
      /\ (forall g, g ∉ fs -> vals !! g = values !! g).
Proof.
  induction fs as [|f fs IH]; intros i values Hraw Hgiven.
  - exists values. split; [reflexivity|]. split; [|reflexivity].
    intros f Hf. now apply elem_of_nil in Hf.
  - inversion Hraw as [|? ? (t & Hf & Ht) Hraw']; subst.
    inversion Hgiven as [|? ? Hgf Hgiven']; subst.
    destruct (raw_token_reads t Ht) as [Hnum Hreq].
    rewrite (solve_loop_required_named f t s Hf args kwargs values i fs)
      by assumption.
    destruct (IH i (<[f := dict_get f kwargs]> values) Hraw' Hgiven')
      as (vals & Hrun & Hfields & Hrest).
    exists vals. split; [exact Hrun|]. split.
    + intros g Hg. destruct (decide (g ∈ fs)) as [Hin|Hout].
      * now apply Hfields.
      * apply elem_of_cons in Hg as [->|Hg]; [|contradiction].
        rewrite (Hrest f Hout), lookup_insert_eq.
        symmetry. now apply given_lookup.
    + intros g Hg. apply not_elem_of_cons in Hg as [Hne Hg].
      rewrite (Hrest g Hg). now apply lookup_insert_ne.
Qed.

Lemma solve_loop_required_positional (f : string) (token : Token)
    (s : session) (args : list pyval) (kwargs values : gmap string pyval)
    (i : nat) (fs : list string) :
  _tokens s !! f = Some token ->
  is_number token = false -> required token = (Ok true, token) ->
  given kwargs f = false ->
  solve_loop args kwargs i (f :: fs) values s
  = match args !! i with
    | Some a => solve_loop args kwargs (S i) fs (<[f := a]> values) s
    | None => (Raise IndexError, s)
    end.
Proof.
  intros Hf Hnum Hreq Hgiven. cbn [solve_loop].
  unfold bind at 1. rewrite (token_item_run f token s Hf). rewrite Hnum.
  unfold bind at 1. rewrite (on_token_same f required token (Ok true) s Hf Hreq).
  rewrite Hgiven. unfold bind at 1, arg_item.
  now destruct (args !! i).
Qed.

(** No field passed by keyword, too few positional arguments. *)
Lemma solve_loop_raw_short (s : session) (args : list pyval)
    (kwargs : gmap string pyval) :
  forall (fs : list string) (i : nat) (values : gmap string pyval),
    raw_fields s fs -> Forall (fun f => given kwargs f = false) fs ->
    (i <= length args < i + length fs)%nat ->
    solve_loop args kwargs i fs values s = (Raise IndexError, s).
Proof.
  induction fs as [|f fs IH]; intros i values Hraw Hgiven Hlen.
  - simpl in Hlen. lia.
  - inversion Hraw as [|? ? (t & Hf & Ht) Hraw']; subst.
    inversion Hgiven as [|? ? Hgf Hgiven']; subst.
    destruct (raw_token_reads t Ht) as [Hnum Hreq].
    rewrite (solve_loop_required_positional f t s args kwargs values i fs)
      by assumption.
    destruct (args !! i) as [a|] eqn:Ha; [|reflexivity].
    apply lookup_lt_Some in Ha. apply IH; [assumption..|].
    simpl in Hlen. lia.
Qed.

(** No field passed by keyword, positional arguments enough: field
    number [j] gets argument number [i + j]. *)
Lemma solve_loop_raw_positional (s : session) (args : list pyval)
    (kwargs : gmap string pyval) :
  forall (fs : list string) (i : nat) (values : gmap string pyval),
    raw_fields s fs -> Forall (fun f => given kwargs f = false) fs ->
    NoDup fs -> (i + length fs <= length args)%nat ->
    exists vals, solve_loop args kwargs i fs values s = (Ok vals, s)
      /\ (forall j f, fs !! j = Some f -> vals !! f = args !! (i + j)%nat)
      /\ (forall g, g ∉ fs -> vals !! g = values !! g).
Proof.
  induction fs as [|f fs IH]; intros i values Hraw Hgiven Hnodup Hlen.
  - exists values. split; [reflexivity|]. split; [|reflexivity].
    intros j f Hj. discriminate.
  - inversion Hraw as [|? ? (t & Hf & Ht) Hraw']; subst.
    inversion Hgiven as [|? ? Hgf Hgiven']; subst.
    destruct (raw_token_reads t Ht) as [Hnum Hreq].
    apply NoDup_cons in Hnodup as [Hfresh Hnodup].
    rewrite (solve_loop_required_positional f t s args kwargs values i fs)
      by assumption.
    destruct (lookup_lt_is_Some_2 args i) as [a Ha]; [simpl in Hlen; lia|].
    rewrite Ha.
    destruct (IH (S i) (<[f := a]> values) Hraw' Hgiven' Hnodup)
      as (vals & Hrun & Hfields & Hrest); [simpl in Hlen; lia|].
    exists vals. split; [exact Hrun|]. split.
    + intros [|j] g Hj.
      * injection Hj as <-. rewrite Nat.add_0_r, Ha.
        rewrite (Hrest f Hfresh). apply lookup_insert_eq.
      * rewrite (Hfields j g Hj).
        now replace (S i + j)%nat with (i + S j)%nat by lia.
    + intros g Hg. apply not_elem_of_cons in Hg as [Hne Hg].
      rewrite (Hrest g Hg). now apply lookup_insert_ne.
Qed.

(** [Rule.solve] with a value for every field and no keyword [self], as
    a run of the session. *)
Lemma Rule_solve_run (rule : Rule) (vals : gmap string pyval) (s : session) :
  fields rule <> [] -> Forall plain_field (fields rule) ->
  vals !! "self" = None ->
  Forall (fun g => is_Some (vals !! g)) (fields rule) ->
  lift (Rule_solve vals rule) s
  = (Ok (join "_" (map (fun g => str (dict_get g vals)) (fields rule))), s).
Proof.
  intros Hne Hplain Hself Hvals. unfold lift, Rule_solve, _pattern, format.
  rewrite Hself. destruct (fields rule) as [|f fs]; [congruence|].
  change (chars ("{" +:+ join "}_{" (f :: fs) +:+ "}"))
    with ("{"%char :: chars (join "}_{" (f :: fs) +:+ "}")).
  rewrite (RuleExtra.format_go_fields f fs vals Hplain Hvals). cbn [rbind].
  now rewrite of_chars_chars.
Qed.

Lemma solve_run (s : session) (rule : Rule) (args : list pyval)
    (kwargs : gmap string pyval) :
  fst (get_active_rule s) = Ok (ERule rule) ->
  solve args kwargs s
  = (let* values := solve_loop args kwargs 0 (fields rule) ∅ in
     lift (Rule_solve values rule)) s.
Proof.
  intros Hactive. apply get_active_rule_keeps in Hactive.
  unfold solve. unfold bind at 1. rewrite Hactive.
  unfold bind at 1. cbn [as_rule]. now unfold ret at 1.
Qed.

Lemma parse_run (s : session) (rule : Rule) (name : string) :
  fst (get_active_rule s) = Ok (ERule rule) ->
  parse name s = Rule_parse name rule s.
Proof.
  intros Hactive. apply get_active_rule_keeps in Hactive.
  unfold parse. unfold bind at 1. rewrite Hactive.
  unfold bind at 1. cbn [as_rule]. now unfold ret at 1.
Qed.

Lemma two_fields_distinct : NoDup ["name"; "version"].
Proof.
  apply NoDup_cons_2; [|apply NoDup_cons_2; [|apply NoDup_nil_2]];
    rewrite list_elem_of_In; simpl; intuition discriminate.
Qed.

Lemma two_fields_plain : Forall plain_field ["name"; "version"].
Proof.
  constructor; [apply RuleExtra.plain_field_name|].
  constructor; [apply RuleExtra.plain_field_version | constructor].
Qed.

(** The values of the fields, read by position. *)
Lemma map_by_position {A} (F : string -> A) (G : pyval -> A) :
  forall (fs : list string) (args : list pyval),
    (length fs <= length args)%nat ->
    (forall j f a, fs !! j = Some f -> args !! j = Some a -> F f = G a) ->
    map F fs = map G (take (length fs) args).
Proof.
  induction fs as [|f fs IH]; intros args Hlen Hsame.
  - reflexivity.
  - destruct args as [|a args]; [simpl in Hlen; lia|].
    cbn [length take map]. f_equal.
    + apply (Hsame 0%nat); reflexivity.
    + apply IH; [simpl in Hlen; lia|].
      intros j g b Hj Hb. now apply (Hsame (S j)).
Qed.

(** X25. For an active rule with at least one field, whose fields are
    distinct plain names of tokens without options and without default,
    and a call of [solve] that passes no field by keyword (a keyword argument that is
    [None] counts as not passed): the positional arguments are taken in
    the order of the fields. With fewer arguments than fields [solve]
    raises [IndexError]. With enough of them, and no field called
    [self], it returns the first arguments, one per field, as [str]
    prints them, joined by underscores, and ignores the arguments beyond
    the fields; with a field called [self] it raises [TypeError]. The
    session is not changed. *)
Theorem solve_by_position (s : session) (rule : Rule) (args : list pyval)
    (kwargs : gmap string pyval) :
  fst (get_active_rule s) = Ok (ERule rule) ->
  fields rule <> [] -> NoDup (fields rule) ->
  Forall plain_field (fields rule) -> raw_fields s (fields rule) ->
  Forall (fun f => given kwargs f = false) (fields rule) ->
  ((length args < length (fields rule))%nat ->
   solve args kwargs s = (Raise IndexError, s))
  /\ ((length (fields rule) <= length args)%nat ->
      "self" ∉ fields rule ->
      solve args kwargs s
      = (Ok (join "_" (map str (take (length (fields rule)) args))), s))
  /\ ((length (fields rule) <= length args)%nat ->
      "self" ∈ fields rule ->
      solve args kwargs s = (Raise TypeError, s)).
Proof.
  intros Hactive Hne Hnodup Hplain Hraw Hgiven.
  rewrite (solve_run s rule args kwargs Hactive).
  assert (Hloop : (length (fields rule) <= length args)%nat ->
            exists vals,
              solve_loop args kwargs 0 (fields rule) ∅ s = (Ok vals, s)
              /\ (forall j f, fields rule !! j = Some f ->
                              vals !! f = args !! j)
              /\ (forall g, g ∉ fields rule -> vals !! g = None)).
  { intros Hlen.
    destruct (solve_loop_raw_positional s args kwargs (fields rule) 0 ∅
                Hraw Hgiven Hnodup)
      as (vals & Hrun & Hfields & Hrest); [simpl; lia|].
    exists vals. split; [exact Hrun|]. split; [exact Hfields|].
    intros g Hg. rewrite (Hrest g Hg). apply lookup_empty. }
  assert (Hgot : forall vals : gmap string pyval,
            (length (fields rule) <= length args)%nat ->
            (forall j f, fields rule !! j = Some f -> vals !! f = args !! j) ->
            Forall (fun g => is_Some (vals !! g)) (fields rule)).
  { intros vals Hlen Hfields. apply Forall_forall. intros f Hf.
    apply list_elem_of_lookup in Hf as [j Hj].
    rewrite (Hfields j f Hj).
    apply lookup_lt_is_Some_2. apply lookup_lt_Some in Hj. lia. }
  split; [|split].
  - intros Hlen. unfold bind at 1.
    rewrite (solve_loop_raw_short s args kwargs (fields rule) 0 ∅)
      by (try assumption; simpl; lia).
    reflexivity.
  - intros Hlen Hself. unfold bind at 1.
    destruct (Hloop Hlen) as (vals & Hrun & Hfields & Hrest).
    rewrite Hrun.
    rewrite (Rule_solve_run rule vals s Hne Hplain (Hrest _ Hself)
               (Hgot vals Hlen Hfields)).
    f_equal. f_equal. f_equal. apply map_by_position; [exact Hlen|].
    intros j f a Hj Ha. unfold dict_get.
    rewrite (Hfields j f Hj). now rewrite Ha.
  - intros Hlen Hself. unfold bind at 1.
    destruct (Hloop Hlen) as (vals & Hrun & Hfields & Hrest).
    rewrite Hrun. unfold lift. rewrite RuleExtra.Rule_solve_self; [reflexivity|].
    pose proof (Hgot vals Hlen Hfields) as Hall.
    rewrite Forall_forall in Hall. now apply Hall.
Qed.

Lemma no_field_self : "self" ∉ ["name"; "version"].
Proof. rewrite list_elem_of_In. simpl. intuition discriminate. Qed.

Lemma solve_by_position_witness :
  let setup :=
    let* _ := add_token "name" [] in
    let* _ := add_token "version" [] in
    add_rule "asset" ["name"; "version"] in
  let s := snd (setup initial) in
  let kwargs : gmap string pyval := <["name" := VNone]> ∅ in
  solve [VStr "hero"] kwargs s = (Raise IndexError, s)
  /\ solve [VStr "hero"; VInt 7; VStr "extra"] kwargs s = (Ok "hero_7", s).
Proof.
  intros setup s kwargs.
  assert (Hraw : raw_fields s ["name"; "version"]).
  { repeat constructor; eexists; (split; [reflexivity|]);
      repeat split; reflexivity. }
  assert (Hgiven : Forall (fun f => given kwargs f = false)
                          ["name"; "version"]).
  { repeat constructor. }
  split.
  - apply (proj1 (solve_by_position s (Rule_init "asset" ["name"; "version"])
                    [VStr "hero"] kwargs eq_refl ltac:(discriminate)
                    two_fields_distinct two_fields_plain Hraw Hgiven)).
    simpl. lia.
  - apply (proj1 (proj2 (solve_by_position s
                    (Rule_init "asset" ["name"; "version"])
                    [VStr "hero"; VInt 7; VStr "extra"] kwargs eq_refl
                    ltac:(discriminate)
                    two_fields_distinct two_fields_plain Hraw Hgiven)));
      [simpl; lia | apply no_field_self].
Defined.

(** *** A rule over one token with options *)

Lemma default_of_token (t : Token) :
  class_of t = ClsToken ->
  (_default t <> VNone ->
   default t = (Ok (_default t), t) /\ required t = (Ok false, t))
  /\ (_default t = VNone -> _options t <> [] ->
      required t = (Raise TypeError, t)).
Proof.
  intros Hc. unfold required, default. rewrite Hc. split.
  - intros Hd. destruct (_default t); [congruence|now split..].
  - intros Hd Ho. rewrite Hd. destruct (_options t); [congruence|reflexivity].
Qed.

(** X26. For an active rule with one field, a plain name other than
    [self], of a token that is not a number token. When the token has a
    default, [solve] returns the default when the field is not passed by
    keyword (or passed as [None]), whatever the positional arguments;
    and when the field is passed as a string it returns the option stored
    under that string, or the text [None] when the token has no such
    option; no exception is raised. When the token has options and no
    default, [solve] raises [TypeError] whatever the arguments: reading
    [required] subscripts [values()], which is a view. The session is not
    changed. *)
Theorem solve_optional_field (s : session) (rule : Rule) (f : string)
    (t : Token) (args : list pyval) (kwargs : gmap string pyval) :
  fst (get_active_rule s) = Ok (ERule rule) ->
  fields rule = [f] -> plain_field f -> f <> "self" ->
  _tokens s !! f = Some t -> class_of t = ClsToken ->
  (_default t <> VNone ->
   (given kwargs f = false ->
    solve args kwargs s = (Ok (str (_default t)), s))
   /\ (forall k v, kwargs !! f = Some (VStr k) ->
         od_get k (_options t) = Some v ->
         solve args kwargs s = (Ok (str v), s))
   /\ (forall k, kwargs !! f = Some (VStr k) ->
         od_get k (_options t) = None ->
         solve args kwargs s = (Ok "None", s)))
  /\ (_default t = VNone -> _options t <> [] ->
      solve args kwargs s = (Raise TypeError, s)).
Proof.
  intros Hactive Hfields Hplain Hself Hf Hc.
  assert (Hnum : is_number t = false) by (unfold is_number; now rewrite Hc).
  destruct (default_of_token t Hc) as [Hstored Hmissing].
  split.
  - intros Hd. destruct (Hstored Hd) as [Hdefault Hrequired].
    assert (Hrun : forall piece : pyval,
               Token_solve (dict_get f kwargs) t = (Ok piece, t) ->
               solve args kwargs s = (Ok (str piece), s)).
    { intros piece Hpiece.
      rewrite (solve_run s rule args kwargs Hactive). rewrite Hfields.
      unfold bind at 1. cbn [solve_loop].
      unfold bind at 1. rewrite (token_item_run f t s Hf). rewrite Hnum.
      unfold bind at 1.
      rewrite (on_token_same f required t (Ok false) s Hf Hrequired).
      unfold bind at 1. rewrite (token_item_run f t s Hf).
      unfold bind at 1.
      rewrite (on_token_same f _ t (Ok piece) s Hf Hpiece).
      unfold ret at 1.
      rewrite Rule_solve_run.
      - rewrite Hfields. cbn [map]. unfold dict_get.
        now rewrite lookup_insert_eq.
      - rewrite Hfields. discriminate.
      - rewrite Hfields. constructor; [exact Hplain | constructor].
      - rewrite lookup_insert_ne by assumption. apply lookup_empty.
      - rewrite Hfields. constructor; [|constructor].
        rewrite lookup_insert_eq. now eexists. }
    split; [|split].
    + intros Hgiven. apply Hrun.
      assert (Hnone : dict_get f kwargs = VNone).
      { unfold given, dict_get in *. destruct (kwargs !! f) as [[]|];
          try reflexivity; discriminate. }
      rewrite Hnone. unfold Token_solve. cbn [is_none]. exact Hdefault.
    + intros k v Hk Hv. apply Hrun. unfold dict_get. rewrite Hk.
      cbn [from_option id]. unfold Token_solve. cbn [is_none od_get_obj].
      now rewrite Hv.
    + intros k Hk Hv. change "None" with (str VNone). apply Hrun.
      unfold dict_get. rewrite Hk.
      cbn [from_option id]. unfold Token_solve. cbn [is_none od_get_obj].
      now rewrite Hv.
  - intros Hd Ho.
    rewrite (solve_run s rule args kwargs Hactive). rewrite Hfields.
    unfold bind at 1. cbn [solve_loop].
    unfold bind at 1. rewrite (token_item_run f t s Hf). rewrite Hnum.
    unfold bind at 1.
    now rewrite (on_token_same f required t (Raise TypeError) s Hf
                   (Hmissing Hd Ho)).
Qed.

Lemma solve_optional_field_witness :
  let setup :=
    let* _ := add_token "name" [("left", VStr "L"); ("right", VStr "R");
                                ("default", VStr "L")] in
    add_rule "side" ["name"] in
  let s := snd (setup initial) in
  let bare :=
    snd ((let* _ := add_token "name" [("left", VStr "L")] in
          add_rule "side" ["name"]) initial) in
  solve [VStr "unused"] ∅ s = (Ok "L", s)
  /\ solve [] (<["name" := VStr "right"]> ∅) s = (Ok "R", s)
  /\ solve [] (<["name" := VStr "up"]> ∅) s = (Ok "None", s)
  /\ solve [] (<["name" := VStr "left"]> ∅) bare = (Raise TypeError, bare).
Proof.
  intros setup s bare.
  assert (Hname : "name" <> "self") by discriminate.
  pose proof (fun args kwargs =>
    solve_optional_field s (Rule_init "side" ["name"]) "name"
      (set_default (VStr "L")
         (add_option "right" (VStr "R")
            (add_option "left" (VStr "L") (Token_init "name"))))
      args kwargs eq_refl eq_refl RuleExtra.plain_field_name Hname eq_refl
      eq_refl) as H.
  pose proof (fun args kwargs =>
    solve_optional_field bare (Rule_init "side" ["name"]) "name"
      (add_option "left" (VStr "L") (Token_init "name"))
      args kwargs eq_refl eq_refl RuleExtra.plain_field_name Hname eq_refl
      eq_refl) as Hbare.
  assert (Hd : VStr "L" <> VNone) by discriminate.
  split; [|split; [|split]].
  - apply (proj1 (proj1 (H [VStr "unused"] ∅) Hd)). reflexivity.
  - apply (proj1 (proj2 (proj1 (H [] (<["name" := VStr "right"]> ∅)) Hd))
             "right" (VStr "R")); reflexivity.
  - apply (proj2 (proj2 (proj1 (H [] (<["name" := VStr "up"]> ∅)) Hd)) "up");
      reflexivity.
  - apply (proj2 (Hbare [] (<["name" := VStr "left"]> ∅)));
      [reflexivity | discriminate].
Defined.

End SessionExtra.

(** ** naming.py: the token registry *)

Module NamingTokenExtra.
Import Wording PyFacts Naming SessionSpec.

Lemma naming_add_token_loop_app (xs ys : odict pyval) (token : Token) :
  add_token_loop (xs ++ ys)%list token
  = add_token_loop ys (add_token_loop xs token).
Proof.
  revert token. induction xs as [|[k v] xs IH]; intros token; simpl;
    [reflexivity|].
  destruct (k =? "default"); apply IH.
Qed.

(** Keyword arguments other than [default], with keys that are new to the
    token, are appended to its options in the order of the loop. *)
Lemma naming_add_token_loop_options (kwargs : odict pyval) (token : Token) :
  ~ In "default" (od_keys kwargs) ->
  NoDup (od_keys (_options token) ++ od_keys kwargs)%list ->
  add_token_loop kwargs token
  = {| class_of := class_of token; _name := _name token;
       _default := _default token;
       _options := (_options token ++ kwargs)%list |}.
Proof.
  revert token. induction kwargs as [|[k v] kwargs IH]; intros token Hd Hnd.
  - simpl. rewrite app_nil_r. now destruct token.
  - simpl in *.
    destruct (String.eqb_spec k "default") as [->|Hk];
      [exfalso; apply Hd; now left|].
    assert (Hfresh : ~ In k (od_keys (_options token))).
    { apply NoDup_app in Hnd as (_ & Hdisj & _).
      intros Hin. apply (Hdisj k); [now apply list_elem_of_In|].
      apply list_elem_of_In. now left. }
    rewrite IH.
    + simpl. f_equal. rewrite (TokenExtra.od_set_fresh k v _ Hfresh).
      now rewrite <- app_assoc.
    + intros Hin. apply Hd. now right.
    + simpl. rewrite (TokenExtra.od_set_fresh k v _ Hfresh).
      unfold od_keys. rewrite map_app. simpl. fold (@od_keys pyval).
      now rewrite <- app_assoc.
Qed.

(** X27. [add_token] of naming.py, called with distinct keywords none of
    which is [name], stores the value of a [default] keyword as the
    default of the token whether or not it is the abbreviation of an
    option, and never makes an option of it; the other keywords become
    the options in the order of the loop. The token is stored under its
    name and returned, the rules are not touched, and with a default
    other than [None] the token is not required. A keyword [name] is
    refused with [TypeError] and nothing is stored. *)
Theorem add_token_default_unchecked (name : string)
    (before after : odict pyval) (d : pyval) (s : session) :
  NoDup (od_keys (before ++ ("default", d) :: after)%list) ->
  ~ In "name" (od_keys (before ++ ("default", d) :: after)%list) ->
  let token :=
    {| class_of := ClsToken; _name := name; _default := d;
       _options := (before ++ after)%list |} in
  let made := add_token name (before ++ ("default", d) :: after)%list s in
  fst made = Ok token
  /\ _tokens (snd made) !! name = Some token
  /\ (forall n, n <> name -> _tokens (snd made) !! n = _tokens s !! n)
  /\ _rules (snd made) = _rules s
  /\ (d <> VNone -> required token = (Ok false, token))
  /\ (forall kwargs, In "name" (od_keys kwargs) ->
        add_token name kwargs s = (Raise TypeError, s)).
Proof.
  intros Hnd Hname token made.
  pose proof (TokenExtra.od_mem_absent "name" _ Hname) as Hmem.
  unfold od_keys in Hnd. rewrite map_app in Hnd. simpl in Hnd.
  fold (@od_keys pyval) in Hnd.
  pose proof Hnd as Hsplit. apply NoDup_app in Hsplit as (Hb & Hdisj & Hrest).
  apply NoDup_cons in Hrest as [Hd_after Ha].
  assert (Hd_before : ~ In "default" (od_keys before)).
  { intros Hin. apply (Hdisj "default"); [now apply list_elem_of_In|].
    now left. }
  assert (Hd_after' : ~ In "default" (od_keys after))
    by (intros Hin; apply Hd_after; now apply list_elem_of_In).
  assert (Hloop : add_token_loop (before ++ ("default", d) :: after)%list
                    (Token_init name) = token).
  { rewrite naming_add_token_loop_app.
    rewrite (naming_add_token_loop_options before (Token_init name) Hd_before)
      by exact Hb.
    cbn [add_token_loop Token_init class_of _name _default _options app].
    change ("default" =? "default") with true. cbv iota.
    rewrite (naming_add_token_loop_options after _ Hd_after').
    - reflexivity.
    - cbn [set_default _options]. apply NoDup_app. split; [exact Hb|].
      split; [|exact Ha].
      intros k Hk Hk'. apply (Hdisj k Hk). now right. }
  unfold made, add_token. rewrite Hmem, Hloop.
  unfold bind, tokens, set_tokens, ret. cbn [fst snd _tokens _rules].
  split; [reflexivity|]. split; [apply lookup_insert_eq|].
  split; [intros n Hn; now apply lookup_insert_ne|].
  split; [reflexivity|]. split.
  - intros Hd. unfold required, default, token.
    cbn [class_of _default _options]. now destruct d.
  - intros kwargs Hin.
    assert (Hfound : od_mem "name" kwargs = true).
    { unfold od_mem. apply existsb_exists. exists "name". now split. }
    now rewrite Hfound.
Qed.

Lemma add_token_default_unchecked_witness :
  let made :=
    add_token "side" [("left", VStr "L"); ("default", VStr "C");
                      ("right", VStr "R")] initial in
  let token :=
    {| class_of := ClsToken; _name := "side"; _default := VStr "C";
       _options := [("left", VStr "L"); ("right", VStr "R")] |} in
  fst made = Ok token /\ required token = (Ok false, token).
Proof.
  intros made token.
  destruct (add_token_default_unchecked "side" [("left", VStr "L")]
              [("right", VStr "R")] (VStr "C") initial)
    as (Hmade & _ & _ & _ & Hreq & _).
  - apply NoDup_cons_2; [|apply NoDup_cons_2; [|apply NoDup_cons_2;
                                                 [|apply NoDup_nil_2]]];
      rewrite list_elem_of_In; simpl; intuition discriminate.
  - simpl. intuition discriminate.
  - split; [exact Hmade|]. apply Hreq. discriminate.
Defined.

Lemma remove_token_run (name : string) (s : session) :
  remove_token name s
  = match _tokens s !! name with
    | Some _ =>
        (Ok true,
         {| _rules := _rules s; _tokens := delete name (_tokens s) |})
    | None => (Ok false, s)
    end.
Proof.
  unfold remove_token, has_token, bind, tokens, set_tokens, ret.
  now destruct (_tokens s !! name).
Qed.

(** X28. [remove_token] of naming.py returns [True] exactly when a token
    is stored under the name; afterwards no token is stored under it,
    the other tokens and the rules are as before, and a second call
    returns [False] and changes nothing. *)
Theorem remove_token_present_absent (name : string) (s : session) :
  let s' := snd (remove_token name s) in
  fst (remove_token name s)
  = Ok (match _tokens s !! name with Some _ => true | None => false end)
  /\ fst (has_token name s') = Ok false
  /\ fst (get_token name s') = Ok None
  /\ (forall n, n <> name -> _tokens s' !! n = _tokens s !! n)
  /\ _rules s' = _rules s
  /\ remove_token name s' = (Ok false, s').
Proof.
  intros s'.
  assert (Hgone : _tokens s' !! name = None).
  { unfold s'. rewrite remove_token_run.
    destruct (_tokens s !! name) eqn:E; cbn [snd _tokens].
    - apply lookup_delete_eq.
    - exact E. }
  split; [|split; [|split; [|split; [|split]]]].
  - rewrite remove_token_run. now destruct (_tokens s !! name).
  - unfold has_token, bind, tokens, ret. cbn [fst]. now rewrite Hgone.
  - unfold get_token, bind, tokens, ret. cbn [fst]. now rewrite Hgone.
  - intros n Hn. unfold s'. rewrite remove_token_run.
    destruct (_tokens s !! name); cbn [snd _tokens];
      [now apply lookup_delete_ne | reflexivity].
  - unfold s'. rewrite remove_token_run.
    now destruct (_tokens s !! name).
  - rewrite (remove_token_run name s'). now rewrite Hgone.
Qed.

(** X29. A rule may name a token that is not registered: [solve] and
    [parse] then raise [KeyError] for the first field of the active rule
    when no token is stored under it, whatever the arguments, and leave
    the session as it is. This is what happens after [remove_token] or
    [reset_tokens]. *)
Theorem active_rule_needs_its_tokens (s : session) (rule : Rule)
    (f : string) (fs : list string) (args : list pyval)
    (kwargs : gmap string pyval) (name : string) :
  fst (get_active_rule s) = Ok (ERule rule) ->
  fields rule = f :: fs -> _tokens s !! f = None ->
  solve args kwargs s = (Raise (KeyError (VStr f)), s)
  /\ parse name s = (Raise (KeyError (VStr f)), s).
Proof.
  intros Hactive Hfields Hf.
  assert (Hitem : token_item f s = (Raise (KeyError (VStr f)), s)).
  { unfold token_item, bind, tokens, ret, raise. now rewrite Hf. }
  split.
  - rewrite (SessionExtra.solve_run s rule args kwargs Hactive).
    rewrite Hfields. unfold bind at 1. cbn [solve_loop].
    unfold bind at 1. now rewrite Hitem.
  - rewrite (SessionExtra.parse_run s rule name Hactive).
    unfold Rule_parse. rewrite Hfields. cbn [parse_loop].
    destruct name as [|c name].
    + cbn [split lookup list_lookup]. unfold bind at 1. now rewrite Hitem.
    + cbn [split]. destruct (c =? "_")%char.
      * cbn [lookup list_lookup]. unfold bind at 1. now rewrite Hitem.
      * destruct (split "_" name); cbn [lookup list_lookup];
          unfold bind at 1; now rewrite Hitem.
Qed.

Lemma active_rule_needs_its_tokens_witness :
  let setup :=
    let* _ := add_token "name" [] in
    let* _ := add_rule "asset" ["name"] in
    reset_tokens in
  let s := snd (setup initial) in
  solve [VStr "hero"] ∅ s = (Raise (KeyError (VStr "name")), s)
  /\ parse "hero" s = (Raise (KeyError (VStr "name")), s).
Proof.
  intros setup s.
  apply (active_rule_needs_its_tokens s (Rule_init "asset" ["name"])
           "name" []); reflexivity.
Defined.

End NamingTokenExtra.

(** ** naming.py: parse after solve *)

Module RoundTripExtra.
Import Wording PyFacts Naming SessionSpec.

Lemma all_digits_no_underscore (d : string) :
  all_digits (chars d) -> no_underscore d.
Proof.
  unfold all_digits, no_underscore. intros Hd.
  eapply Forall_impl; [exact Hd|]. intros c. apply digit_not_underscore.
Qed.

Lemma no_underscore_app (a b : string) :
  no_underscore a -> no_underscore b -> no_underscore (a +:+ b).
Proof.
  unfold no_underscore. intros Ha Hb. rewrite chars_app.
  apply Forall_app. now split.
Qed.

Lemma number_token_solve (t : Token) (pre suf : string) (w n : Z) :
  number_token t pre suf w -> (0 <= n)%Z ->
  TokenNumber_solve (VInt n) t
  = Ok (pre +:+ zero_padded w (decimal n) +:+ suf).
Proof.
  intros (_ & Hpre & Hpad & Hsuf) Hn.
  unfold TokenNumber_solve, option_item. rewrite Hpad, Hpre, Hsuf.
  cbn [rbind str]. rewrite (str_int_decimal n Hn).
  now rewrite (zfill_digits w (decimal n) (decimal_all_digits n)).
Qed.

Lemma number_token_parse (t : Token) (pre suf : string) (w n : Z) :
  number_token t pre suf w -> (0 <= n)%Z ->
  no_digits (chars pre) -> no_digits (chars suf) ->
  token_parse (pre +:+ zero_padded w (decimal n) +:+ suf) t = Ok (VInt n).
Proof.
  intros (Hc & _) Hn Hpre Hsuf. unfold token_parse. rewrite Hc.
  transitivity
    (Tokens.n_parse (pre +:+ zero_padded w (decimal n) +:+ suf)).
  { unfold TokenNumber_parse, Tokens.n_parse.
    now rewrite !NumberExtra.scan_same by lia. }
  rewrite NumberSpec.framed. rewrite NumberSpec.n_parse_framed.
  - rewrite of_chars_chars. now rewrite (int_zero_padded w n Hn).
  - exact Hpre.
  - exact Hsuf.
  - apply zero_padded_all_digits, decimal_all_digits.
  - apply zero_padded_nonempty, decimal_nonempty.
Qed.

(** One turn of the loop of [solve] on such a field. *)
Lemma round_trip_field_solve (s : session) (kwargs : gmap string pyval)
    (f : string) :
  round_trip_field s kwargs f ->
  exists p v, piece_of s kwargs f p v
    /\ forall args i fs values,
         solve_loop args kwargs i (f :: fs) values s
         = solve_loop args kwargs i fs (<[f := VStr p]> values) s.
Proof.
  intros (t & Hf & [[Hraw (v & Hv & Hfree)]
                   |(pre & suf & w & n & Hnum & Hpre & Hsuf & Hpre_ & Hsuf_
                     & Hv & Hn)]).
  - destruct (SessionExtra.raw_token_reads t Hraw) as [Hnumber Hreq].
    exists v, (VStr v). split.
    + split; [exact Hv|]. split; [exact Hfree|].
      exists t. split; [exact Hf|]. split; [exact Hreq|]. now left.
    + intros args i fs values.
      rewrite (solve_loop_required_named f t s Hf args kwargs values i fs)
        by (try assumption; unfold given; now rewrite Hv).
      unfold dict_get. now rewrite Hv.
  - pose proof Hnum as (Hc & _).
    assert (Hnumber : is_number t = true)
      by (unfold is_number; now rewrite Hc).
    assert (Hreq : required t = (Ok true, t))
      by (unfold required; now rewrite Hc).
    exists (pre +:+ zero_padded w (decimal n) +:+ suf), (VInt n). split.
    + split; [exact Hv|]. split.
      * apply no_underscore_app; [exact Hpre_|].
        apply no_underscore_app; [|exact Hsuf_].
        apply all_digits_no_underscore, zero_padded_all_digits,
          decimal_all_digits.
      * exists t. split; [exact Hf|]. split; [exact Hreq|]. right.
        split; [exact Hnumber|]. now apply (number_token_parse t pre suf w n).
    + intros args i fs values.
      apply (solve_loop_number_named f t s Hf args kwargs values i fs).
      * exact Hnumber.
      * unfold given. now rewrite Hv.
      * unfold dict_get. rewrite Hv. cbn [from_option id].
        now apply number_token_solve.
Qed.

(** The loop of [solve]: every field gets its piece. *)
Lemma solve_loop_pieces (s : session) (args : list pyval)
    (kwargs : gmap string pyval) :
  forall (fs : list string) (i : nat) (values : gmap string pyval),
    Forall (round_trip_field s kwargs) fs ->
    exists vals, solve_loop args kwargs i fs values s = (Ok vals, s)
      /\ (forall f, f ∈ fs ->
            exists p v, piece_of s kwargs f p v /\ vals !! f = Some (VStr p))
      /\ (forall g, g ∉ fs -> vals !! g = values !! g).
Proof.
  induction fs as [|f fs IH]; intros i values Hfs.
  - exists values. split; [reflexivity|]. split; [|reflexivity].
    intros f Hf. now apply elem_of_nil in Hf.
  - inversion Hfs as [|? ? Hf Hfs']; subst.
    destruct (round_trip_field_solve s kwargs f Hf) as (p & v & Hp & Hstep).
    rewrite Hstep.
    destruct (IH i (<[f := VStr p]> values) Hfs')
      as (vals & Hrun & Hfields & Hrest).
    exists vals. split; [exact Hrun|]. split.
    + intros g Hg. destruct (decide (g ∈ fs)) as [Hin|Hout].
      * now apply Hfields.
      * apply elem_of_cons in Hg as [->|Hg]; [|contradiction].
        exists p, v. split; [exact Hp|].
        rewrite (Hrest f Hout). apply lookup_insert_eq.
    + intros g Hg. apply not_elem_of_cons in Hg as [Hne Hg].
      rewrite (Hrest g Hg). now apply lookup_insert_ne.
Qed.

(** The loop of [Rule.parse] over the pieces. *)
Lemma parse_loop_pieces (s : session) (kwargs : gmap string pyval)
    (parts : list string) :
  forall (fs : list string) (i : nat) (retval : gmap string pyval),
    (forall j f, fs !! j = Some f ->
       exists p v, parts !! (i + j)%nat = Some p /\ piece_of s kwargs f p v) ->
    exists m, parse_loop parts i fs retval s = (Ok m, s)
      /\ (forall f, f ∈ fs -> m !! f = kwargs !! f)
      /\ (forall g, g ∉ fs -> m !! g = retval !! g).
Proof.
  induction fs as [|f fs IH]; intros i retval Hparts.
  - exists retval. split; [reflexivity|]. split; [|reflexivity].
    intros f Hf. now apply elem_of_nil in Hf.
  - destruct (Hparts 0%nat f eq_refl)
      as (p & v & Hp & Hv & _ & t & Hf & Hreq & Hkind).
    rewrite Nat.add_0_r in Hp.
    assert (Hstep : parse_loop parts i (f :: fs) retval s
                    = parse_loop parts (S i) fs (<[f := v]> retval) s).
    { destruct Hkind as [[Hnum ->]|[Hnum Hparse]].
      - now apply (parse_loop_required_raw f t s Hf parts i fs retval p).
      - now apply (parse_loop_number f t s Hf parts i fs retval p v). }
    rewrite Hstep.
    destruct (IH (S i) (<[f := v]> retval)) as (m & Hrun & Hfields & Hrest).
    { intros j g Hj. destruct (Hparts (S j) g Hj) as (q & u & Hq & Hpiece).
      exists q, u. split; [|exact Hpiece].
      now replace (S i + j)%nat with (i + S j)%nat by lia. }
    exists m. split; [exact Hrun|]. split.
    + intros g Hg. destruct (decide (g ∈ fs)) as [Hin|Hout].
      * now apply Hfields.
      * apply elem_of_cons in Hg as [->|Hg]; [|contradiction].
        rewrite (Hrest f Hout), lookup_insert_eq. now symmetry.
    + intros g Hg. apply not_elem_of_cons in Hg as [Hne Hg].
      rewrite (Hrest g Hg). now apply lookup_insert_ne.
Qed.

(** X24. For an active rule with at least one field, whose fields are
    plain names, none of them [self], of tokens without options and
    without default: [solve] called with a string free of underscores
    for every field returns the strings joined by underscores in the
    order of the fields, and [parse] of that name gives back the keyword
    arguments of the fields and nothing else. Keyword arguments that
    name no field are ignored, and the session is not changed. *)
Theorem parse_undoes_solve_by_keyword (s : session) (rule : Rule)
    (kwargs : gmap string pyval) :
  fst (get_active_rule s) = Ok (ERule rule) ->
  fields rule <> [] -> "self" ∉ fields rule ->
  Forall plain_field (fields rule) -> raw_fields s (fields rule) ->
  Forall (fun f => exists v, kwargs !! f = Some (VStr v) /\ no_underscore v)
         (fields rule) ->
  exists m,
    solve [] kwargs s
    = (Ok (join "_" (map (fun f => str (dict_get f kwargs)) (fields rule))),
       s)
    /\ (let* name := solve [] kwargs in parse name) s = (Ok m, s)
    /\ (forall f, f ∈ fields rule -> m !! f = kwargs !! f)
    /\ (forall g, g ∉ fields rule -> m !! g = None).
Proof.
  intros Hactive Hne Hself Hplain Hraw Hkw.
  set (pieces := map (fun f => str (dict_get f kwargs)) (fields rule)).
  assert (Hgiven : Forall (fun f => given kwargs f = true) (fields rule)).
  { eapply Forall_impl; [exact Hkw|]. intros f (v & Hv & _).
    unfold given. now rewrite Hv. }
  assert (Hsolve : solve [] kwargs s = (Ok (join "_" pieces), s)).
  { rewrite (SessionExtra.solve_run s rule [] kwargs Hactive).
    unfold bind at 1.
    destruct (SessionExtra.solve_loop_raw_named s [] kwargs (fields rule)
                0 ∅ Hraw Hgiven)
      as (vals & Hrun & Hfields & Hrest).
    rewrite Hrun.
    rewrite (SessionExtra.Rule_solve_run rule vals s Hne Hplain).
    - unfold pieces. f_equal. f_equal. f_equal. apply map_ext_in.
      intros f Hf. apply list_elem_of_In in Hf. unfold dict_get.
      now rewrite (Hfields f Hf).
    - rewrite (Hrest _ Hself). apply lookup_empty.
    - apply Forall_forall. intros f Hf. rewrite (Hfields f Hf).
      rewrite Forall_forall in Hkw. destruct (Hkw f Hf) as (v & Hv & _).
      now exists (VStr v). }
  assert (Hsplit : split "_" (join "_" pieces) = pieces).
  { unfold pieces. destruct (fields rule) as [|f fs]; [congruence|].
    cbn [map]. apply SessionExtra.split_join.
    change (Forall no_underscore
              (map (fun f => str (dict_get f kwargs)) (f :: fs))).
    apply Forall_forall. intros v Hv.
    apply list_elem_of_In, in_map_iff in Hv as (g & <- & Hg).
    apply list_elem_of_In in Hg.
    rewrite Forall_forall in Hkw. destruct (Hkw g Hg) as (w & Hw & Hfree).
    unfold dict_get. now rewrite Hw. }
  destruct (parse_loop_pieces s kwargs pieces (fields rule) 0 ∅)
    as (m & Hparse & Hfields & Hrest).
  { intros j f Hj. cbn [Nat.add].
    pose proof (list_elem_of_lookup_2 _ _ _ Hj) as Hf.
    rewrite Forall_forall in Hkw. destruct (Hkw f Hf) as (v & Hv & Hfree).
    unfold raw_fields in Hraw. rewrite Forall_forall in Hraw.
    destruct (Hraw f Hf) as (t & Ht & Htoken).
    destruct (SessionExtra.raw_token_reads t Htoken) as [Hnum Hreq].
    exists v, (VStr v). split.
    - unfold pieces.
      change (map (fun f => str (dict_get f kwargs)) (fields rule))
        with ((fun f => str (dict_get f kwargs)) <$> fields rule).
      rewrite list_lookup_fmap, Hj. cbn [fmap option_fmap option_map].
      unfold dict_get. now rewrite Hv.
    - split; [exact Hv|]. split; [exact Hfree|].
      exists t. split; [exact Ht|]. split; [exact Hreq|]. now left. }
  exists m. split; [exact Hsolve|]. split; [|split].
  - unfold bind at 1. rewrite Hsolve.
    rewrite (SessionExtra.parse_run s rule _ Hactive).
    unfold Rule_parse. now rewrite Hsplit.
  - exact Hfields.
  - intros g Hg. rewrite (Hrest g Hg). apply lookup_empty.
Qed.

Lemma parse_undoes_solve_by_keyword_witness :
  let setup :=
    let* _ := add_token "name" [] in
    let* _ := add_token "version" [] in
    add_rule "asset" ["name"; "version"] in
  let s := snd (setup initial) in
  let kwargs : gmap string pyval :=
    <["name" := VStr "hero"]>
      (<["version" := VStr "v7"]> (<["artist" := VStr "ann"]> ∅)) in
  exists m,
    solve [] kwargs s = (Ok "hero_v7", s)
    /\ (let* name := solve [] kwargs in parse name) s = (Ok m, s)
    /\ (forall f, f ∈ ["name"; "version"] -> m !! f = kwargs !! f)
    /\ (forall g, g ∉ ["name"; "version"] -> m !! g = None).
Proof.
  intros setup s kwargs.
  apply (parse_undoes_solve_by_keyword s
           (Rule_init "asset" ["name"; "version"]) kwargs).
  - reflexivity.
  - discriminate.
  - apply SessionExtra.no_field_self.
  - apply SessionExtra.two_fields_plain.
  - repeat constructor; eexists; (split; [reflexivity|]);
      repeat split; reflexivity.
  - constructor; [exists "hero"|constructor; [exists "v7"|constructor]];
      (split; [reflexivity|]); repeat constructor; discriminate.
Defined.

(** X30. [parse] undoes [solve]: for an active rule with at least one
    field, all of them plain names and none of them [self], whose tokens
    are tokens without options and without default, passed strings
    without underscore, or number tokens whose prefix and suffix hold no
    character that [isdigit] accepts and no underscore, passed natural
    numbers, [solve] with these keyword arguments returns a name, and
    [parse] of that name returns the keyword arguments of the fields and
    nothing else. The session is not changed. *)
Theorem parse_undoes_solve_in_session (s : session) (rule : Rule)
    (kwargs : gmap string pyval) :
  fst (get_active_rule s) = Ok (ERule rule) ->
  fields rule <> [] -> "self" ∉ fields rule ->
  Forall plain_field (fields rule) ->
  Forall (round_trip_field s kwargs) (fields rule) ->
  exists name m,
    solve [] kwargs s = (Ok name, s)
    /\ parse name s = (Ok m, s)
    /\ (forall f, f ∈ fields rule -> m !! f = kwargs !! f)
    /\ (forall g, g ∉ fields rule -> m !! g = None).
Proof.
  intros Hactive Hne Hself Hplain Hfs.
  destruct (solve_loop_pieces s [] kwargs (fields rule) 0 ∅ Hfs)
    as (vals & Hrun & Hpieces & Hkeys).
  set (pieces := map (fun f => str (dict_get f vals)) (fields rule)).
  assert (Hsolve : solve [] kwargs s = (Ok (join "_" pieces), s)).
  { rewrite (SessionExtra.solve_run s rule [] kwargs Hactive).
    unfold bind at 1. rewrite Hrun.
    apply (SessionExtra.Rule_solve_run rule vals s Hne Hplain).
    - rewrite (Hkeys _ Hself). apply lookup_empty.
    - apply Forall_forall. intros f Hf.
      destruct (Hpieces f Hf) as (p & v & _ & Hp). now exists (VStr p). }
  assert (Hsplit : split "_" (join "_" pieces) = pieces).
  { unfold pieces. destruct (fields rule) as [|f fs]; [congruence|].
    cbn [map]. apply SessionExtra.split_join.
    change (Forall no_underscore
              (map (fun f => str (dict_get f vals)) (f :: fs))).
    apply Forall_forall. intros q Hq.
    apply list_elem_of_In, in_map_iff in Hq as (g & <- & Hg).
    apply list_elem_of_In in Hg.
    destruct (Hpieces g Hg) as (p & v & (_ & Hfree & _) & Hp).
    unfold dict_get. now rewrite Hp. }
  destruct (parse_loop_pieces s kwargs pieces (fields rule) 0 ∅)
    as (m & Hparse & Hfields & Hrest).
  { intros j f Hj. cbn [Nat.add].
    destruct (Hpieces f (list_elem_of_lookup_2 _ _ _ Hj))
      as (p & v & Hpiece & Hp).
    exists p, v. split; [|exact Hpiece]. unfold pieces.
    change (map (fun f => str (dict_get f vals)) (fields rule))
      with ((fun f => str (dict_get f vals)) <$> fields rule).
    rewrite list_lookup_fmap, Hj. cbn [fmap option_fmap option_map].
    unfold dict_get. now rewrite Hp. }
  exists (join "_" pieces), m. split; [exact Hsolve|]. split; [|split].
  - rewrite (SessionExtra.parse_run s rule _ Hactive).
    unfold Rule_parse. now rewrite Hsplit.
  - exact Hfields.
  - intros g Hg. rewrite (Hrest g Hg). apply lookup_empty.
Qed.

Lemma parse_undoes_solve_in_session_witness :
  let setup :=
    let* _ := add_token "name" [] in
    let* _ := add_token_number "version" (VStr "v") (VInt 3) (VStr "") in
    add_rule "asset" ["name"; "version"] in
  let s := snd (setup initial) in
  let kwargs : gmap string pyval :=
    <["name" := VStr "hero"]> (<["version" := VInt 12]> ∅) in
  exists name m,
    solve [] kwargs s = (Ok name, s)
    /\ parse name s = (Ok m, s)
    /\ (forall f, f ∈ ["name"; "version"] -> m !! f = kwargs !! f)
    /\ (forall g, g ∉ ["name"; "version"] -> m !! g = None).
Proof.
  intros setup s kwargs.
  apply (parse_undoes_solve_in_session s
           (Rule_init "asset" ["name"; "version"]) kwargs).
  - reflexivity.
  - discriminate.
  - apply SessionExtra.no_field_self.
  - apply SessionExtra.two_fields_plain.
  - constructor; [|constructor; [|constructor]].
    + eexists. split; [reflexivity|]. left.
      split; [repeat split; reflexivity|].
      exists "hero". split; [reflexivity|].
      repeat constructor; discriminate.
    + eexists. split; [reflexivity|]. right.
      exists "v", "", 3%Z, 12%Z.
      split; [repeat split; reflexivity|].
      split; [repeat constructor|]. split; [constructor|].
      split; [repeat constructor; discriminate|].
      split; [constructor|]. split; [reflexivity|lia].
Defined.

End RoundTripExtra.
